(** * template_sql output plugin: the template compiler and its helpers

    A shallow embedding of [plugins/outputs/template_sql/sql.go] and the
    properties its specification states about it.

    Go strings are byte sequences and are modelled by [string] (a list of
    8-bit [ascii] characters).  The plugin, the value map it fills per metric
    and the logger are kept in an explicit store that every method threads
    through, so that what a method reads and what it writes is visible in
    its type. *)

From Stdlib Require Import ZArith Lia Ascii String DecimalString.
From Equations Require Import Equations.
From stdpp Require Import gmap strings list fin_maps.

Open Scope string_scope.
Open Scope Z_scope.

(** Concatenation of strings simplifies on a constructor, as any fixpoint. *)
Arguments String.append !s1 s2 : simpl nomatch.

(** The concatenation of a list of strings. *)
Definition join (l : list string) : string := foldr String.append EmptyString l.

(** ** Values held in a [map[string]interface{}] *)

(** The dynamic types a template value can have: the field kinds of a metric,
    the timestamp, and anything else a configuration can supply as a default
    value (identified by the name of its Go type). *)
Inductive value : Type :=
| VInt64 (n : Z)
| VUint64 (n : Z)
| VFloat64 (bits : Z)
| VString (s : string)
| VBool (b : bool)
| VTime (unix_nano : Z)
| VOther (gotype : string) (repr : string).

(** ** Machine integers and [strconv.Itoa] *)

(** Go's [int] on the 64-bit targets of the plugin: two's complement. *)
Definition wrap_int (z : Z) : Z := (z + 2 ^ 63) mod 2 ^ 64 - 2 ^ 63.

(** [strconv.Itoa]: the decimal representation, with a leading minus sign for
    negative numbers. *)
Definition Itoa (i : Z) : string := NilZero.string_of_int (Z.to_int i).

(** ** The regular expression [:[a-zA-Z0-9_]*]

    [regexp.Compile(":[a-zA-Z0-9_]*")] cannot fail, and the plugin discards
    its error.  The functions below are Go's [regexp] methods for this one
    expression: leftmost match, greedy star, successive non-overlapping
    matches.  The expression only mentions ASCII characters, whose bytes never
    occur inside a multi-byte UTF-8 sequence, so matching byte by byte is
    matching rune by rune. *)
Module regexp.

Definition colon : ascii := ":"%char.

(** The character class [[a-zA-Z0-9_]]. *)
Definition word (c : ascii) : bool :=
  let n := Z.of_N (N_of_ascii c) in
  ((97 <=? n) && (n <=? 122)) || ((65 <=? n) && (n <=? 90))
  || ((48 <=? n) && (n <=? 57)) || (n =? 95).

(** The greedy [[a-zA-Z0-9_]*] at the start of [s]: what it consumes and
    what it leaves. *)
Fixpoint star_word (s : string) : string * string :=
  match s with
  | String c s' =>
      if word c then let (k, rest) := star_word s' in (String c k, rest)
      else (EmptyString, s)
  | EmptyString => (EmptyString, EmptyString)
  end.

(** The leftmost match in [s]: the text before it, the match, the text
    after it; [None] when [s] has no match. *)
Fixpoint leftmost (s : string) : option (string * string * string) :=
  match s with
  | EmptyString => None
  | String c s' =>
      if Ascii.eqb c colon then
        let (k, rest) := star_word s' in Some (EmptyString, String c k, rest)
      else
        match leftmost s' with
        | Some (pre, m, rest) => Some (String c pre, m, rest)
        | None => None
        end
  end.

Lemma star_word_length s :
  (String.length (snd (star_word s)) <= String.length s)%nat.
Proof.
  induction s as [|c s IH]; simpl; [lia|].
  destruct (word c); [|simpl; lia].
  destruct (star_word s); simpl in *; lia.
Qed.

Lemma leftmost_length s pre m rest :
  leftmost s = Some (pre, m, rest) ->
  (String.length rest < String.length s)%nat.
Proof.
  revert pre m rest; induction s as [|c s IH]; simpl; intros pre m rest H.
  - discriminate.
  - destruct (Ascii.eqb c colon).
    + pose proof (star_word_length s) as Hl.
      destruct (star_word s) as [k r]; simpl in Hl.
      injection H as _ _ <-. lia.
    + destruct (leftmost s) as [[[pre' m'] rest']|]; [|discriminate].
      injection H as _ _ <-. specialize (IH _ _ _ eq_refl). lia.
Qed.

Definition inspect {A} (a : A) : {b : A | a = b} := exist _ a eq_refl.

(** [r.FindAllString(s, -1)]: all successive matches, in order. *)
Equations? FindAllString (s : string) : list string
  by wf (String.length s) lt :=
  FindAllString s with inspect (leftmost s) := {
    | exist _ (Some (pre, m, rest)) H => m :: FindAllString rest
    | exist _ None _ => [] }.
Proof. eapply leftmost_length; eassumption. Qed.

(** [r.ReplaceAllStringFunc(src, repl)]: the text between matches is
    copied and each match is replaced by what [repl] returns for it.  Go
    calls [repl] once per match from left to right; a closure that updates
    a captured variable is a function on the state [St] of that variable. *)
Equations? ReplaceAllStringFunc {St : Type} (src : string)
    (repl : string -> St -> string * St) (st : St) : string * St
  by wf (String.length src) lt :=
  ReplaceAllStringFunc src repl st with inspect (leftmost src) := {
    | exist _ (Some (pre, m, rest)) H =>
        let (new, st1) := repl m st in
        let (out, st2) := ReplaceAllStringFunc rest repl st1 in
        (pre ++ new ++ out, st2)
    | exist _ None _ => (src, st) }.
Proof. eapply leftmost_length; eassumption. Qed.

(** [r.ReplaceAllString(src, repl)] for a replacement text without [$]
    (Go expands [$name] in [repl]; the plugin passes ["?"]). *)
Definition ReplaceAllString (src repl : string) : string :=
  fst (ReplaceAllStringFunc src (fun _ (u : unit) => (repl, u)) tt).

End regexp.

(** ** The plugin's configuration and the store its methods run in *)

Record ConvertStruct : Type := {
  Integer : string;
  Real : string;
  Text : string;
  Timestamp : string;
  Defaultvalue : string;
  Unsigned : string;
  Bool : string;
  ConversionStyle : string;
}.

(** The [SQL] struct.  The durations are nanosecond counts.  The unexported
    connection handle [db] and the logger are not fields of the model: the
    methods embedded here never touch the connection, and what they log is
    collected in the store. *)
Record SQL : Type := {
  Driver : string;
  DataSourceName : string;
  InitSQL : string;
  Queries : list string;
  DefaultValues : gmap string value;
  Convert : ConvertStruct;
  ConnectionMaxIdleTime : Z;
  ConnectionMaxLifetime : Z;
  ConnectionMaxIdle : Z;
  ConnectionMaxOpen : Z;
}.

(** [newSQL]: the defaults of a plugin instance (Go zero values elsewhere; a
    nil map reads like an empty one). *)
Definition newSQL : SQL := {|
  Driver := "";
  DataSourceName := "";
  InitSQL := "";
  Queries := [];
  DefaultValues := ∅;
  Convert := {|
    Integer := "INT";
    Real := "DOUBLE";
    Text := "TEXT";
    Timestamp := "TIMESTAMP";
    Defaultvalue := "TEXT";
    Unsigned := "UNSIGNED";
    Bool := "BOOL";
    ConversionStyle := "unsigned_suffix";
  |};
  ConnectionMaxIdleTime := 0;
  ConnectionMaxLifetime := 0;
  ConnectionMaxIdle := 2;
  ConnectionMaxOpen := 0;
|}.

(** A call of [p.Log.Errorf(format, args...)]. *)
Record LogEntry : Type := Errorf_entry {
  log_format : string;
  log_args : list value;
}.

(** What a method of the plugin can read and write: the receiver [*p], the
    map object [valuesMap] (a Go map is a reference, so caller and callee
    share it) and the lines sent to the logger so far (oldest first). *)
Record Store : Type := {
  receiver : SQL;
  valuesMap : gmap string value;
  logged : list LogEntry;
}.

Definition M (A : Type) : Type := Store -> A * Store.

Definition ret {A} (a : A) : M A := fun st => (a, st).

Definition bind {A B} (c : M A) (k : A -> M B) : M B :=
  fun st => let (a, st1) := c st in k a st1.

Notation "'do' x <- c ;; k" := (bind c (fun x => k))
  (at level 10, x name, c at level 99, k at level 200).
Notation "'run' c ;; k" := (bind c (fun _ => k))
  (at level 10, c at level 99, k at level 200).

(** Reading the receiver. *)
Definition this : M SQL := fun st => (receiver st, st).

(** [valuesMap := make(map[string]any)]. *)
Definition map_make : M unit :=
  fun st => (tt, {| receiver := receiver st; valuesMap := ∅;
                    logged := logged st |}).

(** [valuesMap[key] = v]. *)
Definition map_assign (key : string) (v : value) : M unit :=
  fun st => (tt, {| receiver := receiver st;
                    valuesMap := <[key := v]> (valuesMap st);
                    logged := logged st |}).

(** [value, ok := valuesMap[key]]. *)
Definition map_index (key : string) : M (option value) :=
  fun st => (valuesMap st !! key, st).

(** [p.Log.Errorf(format, args...)]. *)
Definition Errorf (format : string) (args : list value) : M unit :=
  fun st => (tt, {| receiver := receiver st; valuesMap := valuesMap st;
                    logged := logged st ++ [Errorf_entry format args] |}).

(** ** [generateQuery] *)

(** [match[1:]]: every match starts with the colon. *)
Definition tail_from_1 (s : string) : string :=
  match s with
  | String _ s' => s'
  | EmptyString => EmptyString
  end.

(** [fmt.Errorf("%v not found in metric", key)]. *)
Definition not_found_error (key : string) : string :=
  key ++ " not found in metric".

(** The loop over [matchs]: the values found so far are in [values]; the
    first key without an entry ends the function with its error. *)
Fixpoint range_matchs (matchs : list string) (values : list value)
  : M (string + list value) :=
  match matchs with
  | [] => ret (inr values)
  | match_ :: matchs' =>
      let key := tail_from_1 match_ in
      do r <- map_index key ;;
      match r with
      | None => ret (inl (not_found_error key))
      | Some v => range_matchs matchs' (values ++ [v])
      end
  end.

(** The closure handed to [ReplaceAllStringFunc] for Postgres: [i++] on the
    captured counter, then ["$" + strconv.Itoa(i)]. *)
Definition pgx_placeholder (s : string) (i : Z) : string * Z :=
  let i := wrap_int (i + 1) in ("$" ++ Itoa i, i).

(** [p.generateQuery(sql, valuesMap)]: the rewritten statement, the
    arguments, and the error ([None] is Go's nil error; the nil slice is the
    empty list).  The receiver and the map that the argument [valuesMap]
    refers to are those of the store; [sql] is passed by value, and the
    assignments to it are to the local copy. *)
Definition generateQuery (sql : string)
  : M (string * list value * option string) :=
  let values := [] in
  let matchs := regexp.FindAllString sql in
  do r <- range_matchs matchs values ;;
  match r with
  | inl err => ret ("", [], Some err)
  | inr values =>
      do p <- this ;;
      if String.eqb (Driver p) "pgx" then
        let i := 0 in
        let (sql, _) := regexp.ReplaceAllStringFunc sql pgx_placeholder i in
        ret (sql, values, None)
      else
        let sql := regexp.ReplaceAllString sql "?" in
        ret (sql, values, None)
  end.

(** ** [deriveDatatype] *)

(** [p.deriveDatatype(value)]: a type switch on the dynamic type of the
    value.  [datatype] starts as the empty string, Go's zero value. *)
Definition deriveDatatype (v : value) : M string :=
  do p <- this ;;
  let datatype := "" in
  match v with
  | VInt64 _ => ret (Integer (Convert p))
  | VUint64 _ =>
      if String.eqb (ConversionStyle (Convert p)) "unsigned_suffix" then
        ret (Integer (Convert p) ++ " " ++ Unsigned (Convert p))
      else if String.eqb (ConversionStyle (Convert p)) "literal" then
        ret (Unsigned (Convert p))
      else
        run Errorf "unknown conversion style: %s"
                   [VString (ConversionStyle (Convert p))] ;;
        ret datatype
  | VFloat64 _ => ret (Real (Convert p))
  | VString _ => ret (Text (Convert p))
  | VBool _ => ret (Bool (Convert p))
  | VTime _ | VOther _ _ =>
      let datatype := Defaultvalue (Convert p) in
      run Errorf "Unknown datatype: '%T' %v" [v; v] ;;
      ret datatype
  end.

(** ** The value map of a metric, as [WriteMetric] builds it *)

(** What the plugin uses of a [telegraf.Metric]: its name, its time, its
    tags and its fields. *)
Record Metric : Type := {
  Name : string;
  Time : Z;
  Tags : gmap string string;
  Fields : gmap string value;
}.

(** [for k, v := range m] visits every entry of a Go map once, in an order
    the language leaves open: any arrangement of the entries is possible. *)
Definition iteration_of {V} (m : gmap string V) (kvs : list (string * V))
  : Prop :=
  kvs ≡ₚ map_to_list m.

(** [for key, value := range m { valuesMap[key] = value }], for the order
    in which the loop happens to visit the entries. *)
Fixpoint range_assign (kvs : list (string * value)) : M unit :=
  match kvs with
  | [] => ret tt
  | (key, v) :: kvs' => run map_assign key v ;; range_assign kvs'
  end.

(** A tag value is a string. *)
Definition tag_entry (kv : string * string) : string * value :=
  (kv.1, VString kv.2).

(** The first part of the loop body of [WriteMetric]: the map is made and
    filled from the metric name and time, the default values, the tags and
    the fields, in this order.  The three lists are the orders in which the
    three [range] loops visit their maps. *)
Definition WriteMetric_valuesMap (metric : Metric)
    (defaults : list (string * value)) (tags : list (string * string))
    (fields : list (string * value)) : M unit :=
  run map_make ;;
  run map_assign "metric" (VString (Name metric)) ;;
  run map_assign "timestamp" (VTime (Time metric)) ;;
  run range_assign defaults ;;
  run range_assign (tag_entry <$> tags) ;;
  range_assign fields.

(** ** Runes: Go's [unicode/utf8]

    A [rune] is a code point; a string holds its UTF-8 encoding.  Ranging
    over a string decodes it rune by rune, a byte that does not start a
    well-formed encoding being read as U+FFFD of width one. *)
Module utf8.

Definition RuneError : Z := 0xFFFD.
Definition MaxRune : Z := 0x10FFFF.
Definition surrogateMin : Z := 0xD800.
Definition surrogateMax : Z := 0xDFFF.
Definition rune1Max : Z := 0x7F.
Definition rune2Max : Z := 0x7FF.
Definition rune3Max : Z := 0xFFFF.

Definition tx : Z := 0x80.
Definition t2 : Z := 0xC0.
Definition t3 : Z := 0xE0.
Definition t4 : Z := 0xF0.
Definition maskx : Z := 0x3F.
Definition mask2 : Z := 0x1F.
Definition mask3 : Z := 0x0F.
Definition mask4 : Z := 0x07.
Definition locb : Z := 0x80.
Definition hicb : Z := 0xBF.

(** The value of a byte, and the byte of a value ([byte(x)] truncates). *)
Definition byte_val (c : ascii) : Z := Z.of_N (N_of_ascii c).
Definition to_byte (z : Z) : ascii := ascii_of_N (Z.to_N (z mod 256)).

(** What the first byte of an encoding says (the table [first] with
    [acceptRanges]): an ASCII byte, an invalid start, or the length of the
    sequence with the range accepted for its second byte. *)
Inductive first_info : Type :=
| ascii_byte
| invalid_byte
| lead_byte (size : nat) (lo hi : Z).

Definition first (b : Z) : first_info :=
  if b <? 0x80 then ascii_byte
  else if b <? 0xC2 then invalid_byte
  else if b <? 0xE0 then lead_byte 2 locb hicb
  else if b =? 0xE0 then lead_byte 3 0xA0 hicb
  else if b <? 0xED then lead_byte 3 locb hicb
  else if b =? 0xED then lead_byte 3 locb 0x9F
  else if b <? 0xF0 then lead_byte 3 locb hicb
  else if b =? 0xF0 then lead_byte 4 0x90 hicb
  else if b <? 0xF4 then lead_byte 4 locb hicb
  else if b =? 0xF4 then lead_byte 4 locb 0x8F
  else invalid_byte.

(** [utf8.DecodeRuneInString]: the first rune of [s] and its width in
    bytes. *)
Definition DecodeRuneInString (s : string) : Z * nat :=
  match s with
  | EmptyString => (RuneError, 0%nat)
  | String c0 s1 =>
      let s0 := byte_val c0 in
      match first s0 with
      | ascii_byte => (s0, 1%nat)
      | invalid_byte => (RuneError, 1%nat)
      | lead_byte sz lo hi =>
          if (String.length s <? sz)%nat then (RuneError, 1%nat) else
          match s1 with
          | EmptyString => (RuneError, 1%nat)
          | String c1 s2 =>
              let b1 := byte_val c1 in
              if (b1 <? lo) || (hi <? b1) then (RuneError, 1%nat) else
              if (sz <=? 2)%nat then
                (Z.lor (Z.shiftl (Z.land s0 mask2) 6) (Z.land b1 maskx),
                 2%nat)
              else
              match s2 with
              | EmptyString => (RuneError, 1%nat)
              | String c2 s3 =>
                  let b2 := byte_val c2 in
                  if (b2 <? locb) || (hicb <? b2) then (RuneError, 1%nat)
                  else
                  if (sz <=? 3)%nat then
                    (Z.lor (Z.lor (Z.shiftl (Z.land s0 mask3) 12)
                                  (Z.shiftl (Z.land b1 maskx) 6))
                           (Z.land b2 maskx), 3%nat)
                  else
                  match s3 with
                  | EmptyString => (RuneError, 1%nat)
                  | String c3 _ =>
                      let b3 := byte_val c3 in
                      if (b3 <? locb) || (hicb <? b3) then
                        (RuneError, 1%nat)
                      else
                        (Z.lor (Z.lor (Z.lor
                           (Z.shiftl (Z.land s0 mask4) 18)
                           (Z.shiftl (Z.land b1 maskx) 12))
                           (Z.shiftl (Z.land b2 maskx) 6))
                           (Z.land b3 maskx), 4%nat)
                  end
              end
          end
      end
  end.

Definition encode3 (r : Z) : string :=
  String (to_byte (Z.lor t3 (Z.shiftr r 12)))
 (String (to_byte (Z.lor tx (Z.land (Z.shiftr r 6) maskx)))
 (String (to_byte (Z.lor tx (Z.land r maskx))) EmptyString)).

(** [utf8.AppendRune(nil, r)]: the encoding of [r]; a rune that is out of
    range or a surrogate is written as U+FFFD. *)
Definition EncodeRune (r : Z) : string :=
  if (0 <=? r) && (r <=? rune1Max) then
    String (to_byte r) EmptyString
  else if (0 <=? r) && (r <=? rune2Max) then
    String (to_byte (Z.lor t2 (Z.shiftr r 6)))
   (String (to_byte (Z.lor tx (Z.land r maskx))) EmptyString)
  else if (r <? 0) || (MaxRune <? r)
          || ((surrogateMin <=? r) && (r <=? surrogateMax)) then
    encode3 RuneError
  else if r <=? rune3Max then
    encode3 r
  else
    String (to_byte (Z.lor t4 (Z.shiftr r 18)))
   (String (to_byte (Z.lor tx (Z.land (Z.shiftr r 12) maskx)))
   (String (to_byte (Z.lor tx (Z.land (Z.shiftr r 6) maskx)))
   (String (to_byte (Z.lor tx (Z.land r maskx))) EmptyString))).

(** [s[n:]] for [n] within the string. *)
Fixpoint skip (n : nat) (s : string) : string :=
  match n, s with
  | S n', String _ s' => skip n' s'
  | _, _ => s
  end.

Lemma skip_length n s : (String.length (skip n s) <= String.length s)%nat.
Proof.
  revert s; induction n as [|n IH]; intros [|c s]; simpl; try lia.
  specialize (IH s). lia.
Qed.

Lemma DecodeRuneInString_width c s :
  exists n, snd (DecodeRuneInString (String c s)) = S n.
Proof.
  unfold DecodeRuneInString.
  repeat match goal with
         | |- context [match ?x with _ => _ end] => destruct x
         end; simpl; eauto.
Qed.

(** The runes of a string, as [for _, c := range s] yields them. *)
Equations? runes (s : string) : list Z by wf (String.length s) lt :=
  runes EmptyString := [];
  runes (String c s') :=
    fst (DecodeRuneInString (String c s'))
    :: runes (skip (snd (DecodeRuneInString (String c s'))) (String c s')).
Proof.
  destruct (DecodeRuneInString_width c s') as [n ->].
  cbn [skip]. pose proof (skip_length n s'). simpl. lia.
Qed.

(** The string that holds the given runes. *)
Definition EncodeRunes (rs : list Z) : string :=
  join (EncodeRune <$> rs).

End utf8.

(** ** Go's [strings] package *)
Module strings.

(** [strings.Map(mapping, s)]: every rune of [s] is replaced by its image,
    a rune with a negative image being dropped. *)
Definition Map (mapping : Z -> Z) (s : string) : string :=
  join
    ((fun c => let r := mapping c in
               if 0 <=? r then utf8.EncodeRune r else EmptyString)
       <$> utf8.runes s).

(** What is left of [s] after the prefix [old], for a non-empty [old]. *)
Fixpoint cut_prefix (old s : string) : option string :=
  match old, s with
  | String a EmptyString, String c s' =>
      if Ascii.eqb a c then Some s' else None
  | String a old', String c s' =>
      if Ascii.eqb a c then cut_prefix old' s' else None
  | _, _ => None
  end.

Lemma cut_prefix_length old s rest :
  cut_prefix old s = Some rest ->
  (String.length rest < String.length s)%nat.
Proof.
  revert s rest; induction old as [|a old IH]; intros s rest; [easy|].
  destruct s as [|c s]; simpl; [destruct old; easy|].
  destruct old as [|a' old'].
  - destruct (Ascii.eqb a c); [|easy]. intros [= <-]. lia.
  - destruct (Ascii.eqb a c); [|easy]. intros H. apply IH in H. lia.
Qed.

(** [strings.ReplaceAll(s, old, new)] for a non-empty [old]: the
    non-overlapping occurrences of [old], from the left, become [new]. *)
Equations? ReplaceAll (s old new : string) : string
  by wf (String.length s) lt :=
  ReplaceAll EmptyString old new := EmptyString;
  ReplaceAll (String c s') old new
    with regexp.inspect (cut_prefix old (String c s')) := {
    | exist _ (Some rest) H => new ++ ReplaceAll rest old new
    | exist _ None _ => String c (ReplaceAll s' old new) }.
Proof.
  - eapply cut_prefix_length; eassumption.
  - simpl; lia.
Qed.

End strings.

(** ** Quoting *)

Definition double_quote : string := String "034"%char EmptyString.
Definition single_quote : string := "'".
Definition underscore : Z := 95.

(** The mapping of [sanitizeQuoted]: the allowed runes stay, every other
    rune becomes an underscore. *)
Definition sanitize_rune (r : Z) : Z :=
  if (1 <=? r) && (r <=? 0xFFFF) then r else underscore.

Definition sanitizeQuoted (in_ : string) : string :=
  strings.Map sanitize_rune in_.

(** Quote an identifier (table or column name). *)
Definition quoteIdent (name : string) : string :=
  double_quote
  ++ strings.ReplaceAll (sanitizeQuoted name) double_quote
       (double_quote ++ double_quote)
  ++ double_quote.

(** Quote a string literal. *)
Definition quoteStr (name : string) : string :=
  single_quote
  ++ strings.ReplaceAll name single_quote (single_quote ++ single_quote)
  ++ single_quote.

(** ** Templates as token sequences

    The reading of a template that the specification has in mind: a template
    is a sequence of placeholders [:key] and of other characters.  A
    placeholder takes all the word characters that follow its colon, so in a
    well-formed sequence no placeholder is followed by a word character, and
    a colon is never plain text. *)
Inductive token : Type :=
| Plain (c : ascii)
| Placeholder (key : string).

Definition token_source (t : token) : string :=
  match t with
  | Plain c => String c EmptyString
  | Placeholder key => String regexp.colon key
  end.

(** The template a token sequence stands for. *)
Fixpoint source (ts : list token) : string :=
  match ts with
  | [] => EmptyString
  | t :: ts' => token_source t ++ source ts'
  end.

Fixpoint all_word (k : string) : bool :=
  match k with
  | EmptyString => true
  | String c k' => regexp.word c && all_word k'
  end.

Definition next_is_word (ts : list token) : bool :=
  match ts with
  | Plain c :: _ => regexp.word c
  | _ => false
  end.

Fixpoint well_formed (ts : list token) : bool :=
  match ts with
  | [] => true
  | Plain c :: ts' => negb (Ascii.eqb c regexp.colon) && well_formed ts'
  | Placeholder key :: ts' =>
      all_word key && negb (next_is_word ts') && well_formed ts'
  end.

(** The word characters at the head of a token sequence, and the rest. *)
Fixpoint leading_word (ts : list token) : string * list token :=
  match ts with
  | Plain c :: ts' =>
      if regexp.word c then
        let (k, rest) := leading_word ts' in (String c k, rest)
      else (EmptyString, ts)
  | _ => (EmptyString, ts)
  end.

(** The token sequence of a template, read from its end: a colon takes the
    word characters that follow it as its key. *)
Fixpoint tokens (s : string) : list token :=
  match s with
  | EmptyString => []
  | String c s' =>
      if Ascii.eqb c regexp.colon then
        let (k, rest) := leading_word (tokens s') in Placeholder k :: rest
      else Plain c :: tokens s'
  end.

(** The keys of the placeholder occurrences, from left to right. *)
Fixpoint keys (ts : list token) : list string :=
  match ts with
  | [] => []
  | Plain _ :: ts' => keys ts'
  | Placeholder key :: ts' => key :: keys ts'
  end.

(** The template with its [n+1]-th, [n+2]-th, ... placeholder occurrence
    replaced by [marker (n+1)], [marker (n+2)], ... and every other
    character kept. *)
Fixpoint rewritten (marker : nat -> string) (n : nat) (ts : list token)
  : string :=
  match ts with
  | [] => EmptyString
  | Plain c :: ts' => String c (rewritten marker n ts')
  | Placeholder _ :: ts' => marker (S n) ++ rewritten marker (S n) ts'
  end.

(** [$n] for Postgres, [?] for every other driver. *)
Definition dollar (n : nat) : string := "$" ++ Itoa (Z.of_nat n).
Definition question (n : nat) : string := "?".

Definition marker_of (driver : string) : nat -> string :=
  if String.eqb driver "pgx" then dollar else question.

(** A key without an entry in the value map, and the first such key among
    the keys of a template. *)
Definition missing (m : gmap string value) (key : string) : bool :=
  bool_decide (m !! key = None).

Definition first_missing (m : gmap string value) (ks : list string)
  : option string :=
  List.find (missing m) ks.

(** A colon of a template is bare when no word character follows it. *)
Definition begins_with_word (s : string) : bool :=
  match s with
  | String c _ => regexp.word c
  | EmptyString => false
  end.

(** ** The precedence of the value sources *)

Definition builtin (metric : Metric) (key : string) : option value :=
  if String.eqb key "timestamp" then Some (VTime (Time metric))
  else if String.eqb key "metric" then Some (VString (Name metric))
  else None.

(** The value of a key: the field of that name, else the tag, else the
    configured default, else the built-in entry. *)
Definition resolved (p : SQL) (metric : Metric) (key : string)
  : option value :=
  match Fields metric !! key with
  | Some v => Some v
  | None =>
      match Tags metric !! key with
      | Some t => Some (VString t)
      | None =>
          match DefaultValues p !! key with
          | Some d => Some d
          | None => builtin metric key
          end
      end
  end.

(** ** Quoted identifiers, character by character *)

Definition quote_rune : Z := 34.

Definition double_rune (r : Z) : list Z :=
  if r =? quote_rune then [quote_rune; quote_rune] else [r].

(** The characters of a quoted identifier when [replace] is applied to every
    character of the name first. *)
Definition quoted_with (replace : Z -> Z) (rs : list Z) : list Z :=
  [quote_rune] ++ (rs ≫= fun r => double_rune (replace r)) ++ [quote_rune].

(** The replacement as the specification words it: the code points below
    U+0001 become an underscore. *)
Definition below_one_only (r : Z) : Z := if r <? 1 then underscore else r.

(** The replacement of the code: U+0000 and the code points above U+FFFF
    become an underscore. *)
Definition outside_plane (r : Z) : Z :=
  if (r =? 0) || (0xFFFF <? r) then underscore else r.

(** A Unicode scalar value: a code point that is not a surrogate. *)
Definition scalar (r : Z) : Prop :=
  0 <= r <= utf8.MaxRune /\ ~ (utf8.surrogateMin <= r <= utf8.surrogateMax).

(** A control character (general category Cc). *)
Definition control (r : Z) : Prop := r < 0x20 \/ 0x7F <= r <= 0x9F.

(** The characters the specification calls printable: its printable range
    starts at U+0001. *)
Definition printable (r : Z) : Prop := scalar r /\ 1 <= r.

(** Removing the quotes again: without the first and the last character,
    and with every doubled quote collapsed to one. *)
Fixpoint without_last (s : string) : string :=
  match s with
  | EmptyString => EmptyString
  | String c t =>
      match t with
      | EmptyString => EmptyString
      | String _ _ => String c (without_last t)
      end
  end.

Fixpoint collapse (s : string) : string :=
  match s with
  | EmptyString => EmptyString
  | String a t =>
      match t with
      | EmptyString => s
      | String b s' =>
          if Ascii.eqb a "034" && Ascii.eqb b "034" then String a (collapse s')
          else String a (collapse t)
      end
  end.

Definition unquote (s : string) : string :=
  collapse (without_last (tail_from_1 s)).

(** What [ReplaceAllStringFunc] does, told on the token sequence: a plain
    character is copied, a placeholder is handed to [repl]. *)
Fixpoint replace_tokens {St : Type} (repl : string -> St -> string * St)
    (st : St) (ts : list token) : string * St :=
  match ts with
  | [] => (EmptyString, st)
  | Plain c :: ts' =>
      let (out, st') := replace_tokens repl st ts' in (String c out, st')
  | Placeholder key :: ts' =>
      let (new, st1) := repl (String regexp.colon key) st in
      let (out, st2) := replace_tokens repl st1 ts' in
      (new ++ out, st2)
  end.

(** The values of the keys that have one, in the order of the keys. *)
Definition values_of (m : gmap string value) (ks : list string)
  : list value :=
  omap (fun key => m !! key) ks.

(** The statement [generateQuery] returns for a driver when every key has a
    value. *)
Definition compiled (driver sql : string) : string :=
  if String.eqb driver "pgx" then
    (regexp.ReplaceAllStringFunc sql pgx_placeholder 0).1
  else regexp.ReplaceAllString sql "?".

(** ** Building plugins and stores *)

(** [p.Driver = driver], as the tests set it on a fresh plugin. *)
Definition with_Driver (driver : string) (p : SQL) : SQL := {|
  Driver := driver;
  DataSourceName := DataSourceName p;
  InitSQL := InitSQL p;
  Queries := Queries p;
  DefaultValues := DefaultValues p;
  Convert := Convert p;
  ConnectionMaxIdleTime := ConnectionMaxIdleTime p;
  ConnectionMaxLifetime := ConnectionMaxLifetime p;
  ConnectionMaxIdle := ConnectionMaxIdle p;
  ConnectionMaxOpen := ConnectionMaxOpen p;
|}.

(** [p.DefaultValues = defaults]. *)
Definition with_DefaultValues (defaults : gmap string value) (p : SQL)
  : SQL := {|
  Driver := Driver p;
  DataSourceName := DataSourceName p;
  InitSQL := InitSQL p;
  Queries := Queries p;
  DefaultValues := defaults;
  Convert := Convert p;
  ConnectionMaxIdleTime := ConnectionMaxIdleTime p;
  ConnectionMaxLifetime := ConnectionMaxLifetime p;
  ConnectionMaxIdle := ConnectionMaxIdle p;
  ConnectionMaxOpen := ConnectionMaxOpen p;
|}.

(** [p.Convert = convert]. *)
Definition with_Convert (convert : ConvertStruct) (p : SQL) : SQL := {|
  Driver := Driver p;
  DataSourceName := DataSourceName p;
  InitSQL := InitSQL p;
  Queries := Queries p;
  DefaultValues := DefaultValues p;
  Convert := convert;
  ConnectionMaxIdleTime := ConnectionMaxIdleTime p;
  ConnectionMaxLifetime := ConnectionMaxLifetime p;
  ConnectionMaxIdle := ConnectionMaxIdle p;
  ConnectionMaxOpen := ConnectionMaxOpen p;
|}.

Definition with_Timestamp (name : string) (c : ConvertStruct)
  : ConvertStruct := {|
  Integer := Integer c;
  Real := Real c;
  Text := Text c;
  Timestamp := name;
  Defaultvalue := Defaultvalue c;
  Unsigned := Unsigned c;
  Bool := Bool c;
  ConversionStyle := ConversionStyle c;
|}.

Definition with_ConversionStyle (style : string) (c : ConvertStruct)
  : ConvertStruct := {|
  Integer := Integer c;
  Real := Real c;
  Text := Text c;
  Timestamp := Timestamp c;
  Defaultvalue := Defaultvalue c;
  Unsigned := Unsigned c;
  Bool := Bool c;
  ConversionStyle := style;
|}.

(** A store with the given plugin and value map, nothing logged yet. *)
Definition store_of (p : SQL) (m : gmap string value) : Store :=
  {| receiver := p; valuesMap := m; logged := [] |}.

(** The same store with another plugin. *)
Definition with_receiver (p : SQL) (st : Store) : Store :=
  {| receiver := p; valuesMap := valuesMap st; logged := logged st |}.

(** The same store after one more line was logged. *)
Definition with_logged (e : LogEntry) (st : Store) : Store :=
  {| receiver := receiver st; valuesMap := valuesMap st;
     logged := logged st ++ [e] |}.

(** The value map of the plugin's own test, [TestSqlTemplating], and the
    store of that test: a fresh plugin with the driver ["pgx"]. *)
Definition test_valueMap : gmap string value :=
  <["unused" := VString "unused"]>
    (<["metric" := VString "users"]>
       (<["name" := VString "telegraf"]> ∅)).

Definition test_store : Store :=
  store_of (with_Driver "pgx" newSQL) test_valueMap.

Definition test_query : string := "UPDATE :metric SET name=:name".

(** A metric whose sources collide: [k] is a field, a tag and a default,
    [host] a tag and a default, and the defaults also set [metric]. *)
Definition test_metric : Metric := {|
  Name := "cpu";
  Time := 1700000000000000000;
  Tags := <["k" := "tag"]> (<["host" := "a"]> ∅);
  Fields := <["k" := VInt64 1]> (<["usage" := VFloat64 0]> ∅);
|}.

Definition test_defaults : gmap string value :=
  <["k" := VString "default"]>
    (<["host" := VString "none"]>
       (<["metric" := VString "renamed"]>
          (<["unit" := VString "percent"]> ∅))).

(** A string without the byte of the double quote. *)
Fixpoint quote_free (s : string) : Prop :=
  match s with
  | EmptyString => True
  | String c s' => c <> "034"%char /\ quote_free s'
  end.

(** U+1F600, a character of the emoticons block, and its encoding
    [F0 9F 98 80]. *)
Definition grinning_face : Z := 0x1F600.

Definition grinning_face_utf8 : string :=
  String "240" (String "159" (String "152" (String "128" EmptyString))).

(** ** Reading a quoted token back

    How a SQL lexer reads a quoted token whose quote character is [q]: after
    the opening quote, a doubled [q] stands for one [q] and a single [q]
    ends the token.  [scan_quoted] starts after the opening quote and gives
    the content of the token and the text that follows it. *)
Fixpoint scan_quoted (q : ascii) (s : string) : option (string * string) :=
  match s with
  | EmptyString => None
  | String a t =>
      if Ascii.eqb a q then
        match t with
        | EmptyString => Some (EmptyString, EmptyString)
        | String b t' =>
            if Ascii.eqb b q then
              match scan_quoted q t' with
              | Some (body, rest) => Some (String q body, rest)
              | None => None
              end
            else Some (EmptyString, t)
        end
      else
        match scan_quoted q t with
        | Some (body, rest) => Some (String a body, rest)
        | None => None
        end
  end.

Definition lex_quoted (q : ascii) (s : string) : option (string * string) :=
  match s with
  | String a t => if Ascii.eqb a q then scan_quoted q t else None
  | EmptyString => None
  end.

Definition begins_with (q : ascii) (s : string) : bool :=
  match s with
  | String a _ => Ascii.eqb a q
  | EmptyString => false
  end.

(** The number of occurrences of a byte in a string. *)
Fixpoint count_char (q : ascii) (s : string) : nat :=
  match s with
  | EmptyString => 0%nat
  | String a t => ((if Ascii.eqb a q then 1 else 0) + count_char q t)%nat
  end.

(** The same store with another value map. *)
Definition with_valuesMap (m : gmap string value) (st : Store) : Store :=
  {| receiver := receiver st; valuesMap := m; logged := logged st |}.

(** A conversion table without an empty type name and with one of the two
    conversion styles the plugin knows. *)
Definition table_complete (c : ConvertStruct) : Prop :=
  Integer c <> EmptyString /\ Real c <> EmptyString
  /\ Text c <> EmptyString /\ Defaultvalue c <> EmptyString
  /\ Unsigned c <> EmptyString /\ Bool c <> EmptyString
  /\ (ConversionStyle c = "unsigned_suffix" \/ ConversionStyle c = "literal").

(** The values [deriveDatatype] has a case for. *)
Definition known_kind (v : value) : bool :=
  match v with
  | VInt64 _ | VUint64 _ | VFloat64 _ | VString _ | VBool _ => true
  | VTime _ | VOther _ _ => false
  end.

(** ** The database, [WriteMetric] and [Write]

    The calls the plugin makes on [database/sql]: [p.db.Exec], [p.db.Begin],
    [tx.Prepare], [stmt.Exec], [tx.Commit] and [stmt.Close].  A prepared
    statement is named by its text. *)
Inductive db_call : Type :=
| db_Exec (query : string) (args : list value)
| db_Begin
| tx_Prepare (query : string)
| stmt_Exec (query : string) (args : list value)
| tx_Commit
| stmt_Close (query : string).

(** A database is known by the error it answers to a call, given the calls
    made so far and their answers ([None] is the nil error). *)
Definition Database : Type :=
  list (db_call * option string) -> db_call -> option string.

(** The store of the plugin together with the calls made on the database,
    oldest first, each with the answer it got. *)
Record World : Type := {
  store : Store;
  calls : list (db_call * option string);
}.

Definition W (A : Type) : Type := World -> A * World.

Definition W_ret {A} (a : A) : W A := fun w => (a, w).

Definition W_bind {A B} (c : W A) (k : A -> W B) : W B :=
  fun w => let (a, w1) := c w in k a w1.

Notation "'let*' x := c 'in' k" := (W_bind c (fun x => k))
  (at level 10, x name, c at level 99, k at level 200).

(** A method that only works on the store. *)
Definition in_store {A} (m : M A) : W A :=
  fun w => let (a, st) := m (store w) in
           (a, {| store := st; calls := calls w |}).

(** One call on the database. *)
Definition db_do (db : Database) (c : db_call) : W (option string) :=
  fun w => let e := db (calls w) c in
           (e, {| store := store w; calls := calls w ++ [(c, e)] |}).

(** The orders in which the three [range] loops of one iteration of
    [WriteMetric] visit the default values, the tags and the fields. *)
Record iteration : Type := {
  of_defaults : list (string * value);
  of_tags : list (string * string);
  of_fields : list (string * value);
}.

Definition valid_iteration (p : SQL) (metric : Metric) (it : iteration)
  : Prop :=
  iteration_of (DefaultValues p) (of_defaults it)
  /\ iteration_of (Tags metric) (of_tags it)
  /\ iteration_of (Fields metric) (of_fields it).

(** The deferred [stmt.Close()] calls run when [WriteMetric] returns, the
    last deferred first; what they answer is dropped. *)
Fixpoint run_deferred (db : Database) (deferred : list string) : W unit :=
  match deferred with
  | [] => W_ret tt
  | query :: deferred' =>
      let* _ := db_do db (stmt_Close query) in run_deferred db deferred'
  end.

(** [return err] in [WriteMetric]. *)
Definition return_after (db : Database) (deferred : list string)
    (err : option string) : W (option string) :=
  let* _ := run_deferred db deferred in W_ret err.

(** [fmt.Errorf("... failed: %w", err)]. *)
Definition wrap_error (phase err : string) : string :=
  phase ++ " failed: " ++ err.

(** The loop of [WriteMetric] over the queries that are left; [i] counts the
    iterations done and [deferred] holds the statements whose [Close] is
    deferred, the last one first. *)
Fixpoint WriteMetric_loop (db : Database) (metric : Metric)
    (orders : nat -> iteration) (queries : list string) (i : nat)
    (deferred : list string) : W (option string) :=
  match queries with
  | [] => return_after db deferred None
  | query :: queries' =>
      let* _ := in_store (WriteMetric_valuesMap metric
                            (of_defaults (orders i)) (of_tags (orders i))
                            (of_fields (orders i))) in
      let* r := in_store (generateQuery query) in
      match r with
      | (_, _, Some err) => return_after db deferred (Some err)
      | (sql, values, None) =>
          let* p := in_store this in
          if String.eqb (Driver p) "clickhouse" then
            let* err := db_do db db_Begin in
            match err with
            | Some err =>
                return_after db deferred (Some (wrap_error "begin" err))
            | None =>
            let* err := db_do db (tx_Prepare sql) in
            match err with
            | Some err =>
                return_after db deferred (Some (wrap_error "prepare" err))
            | None =>
            let deferred := sql :: deferred in
            let* err := db_do db (stmt_Exec sql values) in
            match err with
            | Some err =>
                return_after db deferred (Some (wrap_error "execution" err))
            | None =>
            let* err := db_do db tx_Commit in
            match err with
            | Some err =>
                return_after db deferred (Some (wrap_error "commit" err))
            | None =>
                WriteMetric_loop db metric orders queries' (S i) deferred
            end end end end
          else
            let* err := db_do db (db_Exec sql values) in
            match err with
            | Some err =>
                return_after db deferred (Some (wrap_error "execution" err))
            | None =>
                WriteMetric_loop db metric orders queries' (S i) deferred
            end
      end
  end.

(** [p.WriteMetric(metric)]. *)
Definition WriteMetric (db : Database) (metric : Metric)
    (orders : nat -> iteration) : W (option string) :=
  let* p := in_store this in
  WriteMetric_loop db metric orders (Queries p) 0 [].

(** [p.Write(metrics)]: [orders j] gives the iteration orders met while the
    [j]-th metric is written. *)
Fixpoint Write_loop (db : Database) (orders : nat -> nat -> iteration)
    (metrics : list Metric) (j : nat) : W (option string) :=
  match metrics with
  | [] => W_ret None
  | metric :: metrics' =>
      let* err := WriteMetric db metric (orders j) in
      match err with
      | Some err => W_ret (Some err)
      | None => Write_loop db orders metrics' (S j)
      end
  end.

Definition Write (db : Database) (orders : nat -> nat -> iteration)
    (metrics : list Metric) : W (option string) :=
  Write_loop db orders metrics 0.

(** The value map of a metric: the built-in entries, overridden by the
    defaults, the tags and the fields. *)
Definition resolved_map (p : SQL) (metric : Metric) : gmap string value :=
  Fields metric
  ∪ ((VString <$> Tags metric)
     ∪ (DefaultValues p
        ∪ <["timestamp" := VTime (Time metric)]>
            (<["metric" := VString (Name metric)]> ∅))).

(** What [generateQuery] returns for a query of the plugin on a metric. *)
Definition compile_for (p : SQL) (metric : Metric) (query : string)
  : string * list value * option string :=
  (generateQuery query (store_of p (resolved_map p metric))).1.

(** A database that accepts every call. *)
Definition accepting : Database := fun _ _ => None.

(** The same plugin with other queries. *)
Definition with_Queries (queries : list string) (p : SQL) : SQL := {|
  Driver := Driver p;
  DataSourceName := DataSourceName p;
  InitSQL := InitSQL p;
  Queries := queries;
  DefaultValues := DefaultValues p;
  Convert := Convert p;
  ConnectionMaxIdleTime := ConnectionMaxIdleTime p;
  ConnectionMaxLifetime := ConnectionMaxLifetime p;
  ConnectionMaxIdle := ConnectionMaxIdle p;
  ConnectionMaxOpen := ConnectionMaxOpen p;
|}.

(** The iteration orders that follow [map_to_list]. *)
Definition listed (p : SQL) (metric : Metric) : iteration := {|
  of_defaults := map_to_list (DefaultValues p);
  of_tags := map_to_list (Tags metric);
  of_fields := map_to_list (Fields metric);
|}.

(** The world once the value map of the metric has been built. *)
Definition with_resolved (metric : Metric) (w : World) : World :=
  {| store := with_valuesMap (resolved_map (receiver (store w)) metric)
                (store w);
     calls := calls w |}.

(** The part of an iteration of [WriteMetric] that talks to the database,
    for the compiled statement; [next] stands for the iterations that
    follow. *)
Definition execute (db : Database) (driver sql : string)
    (values : list value) (deferred : list string)
    (next : list string -> W (option string)) : W (option string) :=
  if String.eqb driver "clickhouse" then
    let* err := db_do db db_Begin in
    match err with
    | Some err => return_after db deferred (Some (wrap_error "begin" err))
    | None =>
    let* err := db_do db (tx_Prepare sql) in
    match err with
    | Some err => return_after db deferred (Some (wrap_error "prepare" err))
    | None =>
    let* err := db_do db (stmt_Exec sql values) in
    match err with
    | Some err =>
        return_after db (sql :: deferred) (Some (wrap_error "execution" err))
    | None =>
    let* err := db_do db tx_Commit in
    match err with
    | Some err =>
        return_after db (sql :: deferred) (Some (wrap_error "commit" err))
    | None => next (sql :: deferred)
    end end end end
  else
    let* err := db_do db (db_Exec sql values) in
    match err with
    | Some err => return_after db deferred (Some (wrap_error "execution" err))
    | None => next deferred
    end.

(** [WriteMetric] on the compiled queries: what is left of the loop once
    the value map is built and every query is compiled. *)
Fixpoint run_compiled (db : Database) (driver : string)
    (compiled_queries : list (string * list value * option string))
    (deferred : list string) : W (option string) :=
  match compiled_queries with
  | [] => return_after db deferred None
  | (_, _, Some err) :: _ => return_after db deferred (Some err)
  | (sql, values, None) :: rest =>
      execute db driver sql values deferred (run_compiled db driver rest)
  end.

(** The statements that were prepared with success, oldest first. *)
Definition prepared (cs : list (db_call * option string)) : list string :=
  omap (fun ce => match ce with
                  | (tx_Prepare query, None) => Some query
                  | _ => None
                  end) cs.

Definition is_close (c : db_call) : bool :=
  match c with
  | stmt_Close _ => true
  | _ => false
  end.

(** The calls of one statement under ClickHouse, and under any other
    driver. *)
Definition transaction (c : string * list value * option string)
  : list db_call :=
  [db_Begin; tx_Prepare c.1.1; stmt_Exec c.1.1 c.1.2; tx_Commit].

Definition direct (c : string * list value * option string) : db_call :=
  db_Exec c.1.1 c.1.2.

(** A call that was answered with the nil error. *)
Definition accepted (c : db_call) : db_call * option string := (c, None).

(** The world of a plugin that has made no call yet. *)
Definition fresh (p : SQL) : World :=
  {| store := store_of p ∅; calls := [] |}.

(** The same world with other queries in the plugin. *)
Definition with_world_Queries (queries : list string) (w : World) : World :=
  {| store := with_receiver (with_Queries queries (receiver (store w)))
                (store w);
     calls := calls w |}.

(** What a run of the loop leaves: the answer, and the calls it added, those
    of the iterations first and the deferred closes after them. *)
Definition outcome (db : Database) (driver : string)
    (cs : list (string * list value * option string))
    (deferred : list string) (w : World) (err : option string)
    (body closes : list (db_call * option string)) : Prop :=
  run_compiled db driver cs deferred w
  = (err, {| store := store w; calls := (calls w ++ body ++ closes)%list |})
  /\ closes.*1 = stmt_Close <$> (reverse (prepared body) ++ deferred)%list
  /\ Forall (fun ce => is_close ce.1 = false) body.

(** The error of the first query that does not compile. *)
Fixpoint first_error (cs : list (string * list value * option string))
  : option string :=
  match cs with
  | [] => None
  | (_, _, Some err) :: _ => Some err
  | (_, _, None) :: cs' => first_error cs'
  end.

(** An error in place of nil. *)
Definition or_error (err : string) (r : option string) : option string :=
  match r with
  | None => Some err
  | Some e => Some e
  end.

(** The iteration orders that follow [map_to_list] backwards. *)
Definition listed_backwards (p : SQL) (metric : Metric) : iteration := {|
  of_defaults := reverse (map_to_list (DefaultValues p));
  of_tags := reverse (map_to_list (Tags metric));
  of_fields := reverse (map_to_list (Fields metric));
|}.

(** A plugin with two queries on the metric of the tests, for ClickHouse
    and for MySQL, and one whose second query asks for a value that the
    metric does not have. *)
Definition two_queries : list string :=
  ["INSERT INTO t VALUES(:metric,:k)"; "UPDATE x SET a=:host"].

Definition clickhouse_plugin : SQL :=
  with_Queries two_queries
    (with_DefaultValues test_defaults (with_Driver "clickhouse" newSQL)).

Definition mysql_plugin : SQL :=
  with_Queries two_queries
    (with_DefaultValues test_defaults (with_Driver "mysql" newSQL)).

Definition incomplete_plugin : SQL :=
  with_Queries ["UPDATE x SET a=:host"; "UPDATE x SET b=:nothing";
                "UPDATE x SET c=:k"]
    (with_DefaultValues test_defaults (with_Driver "mysql" newSQL)).

(** * Properties *)

(** ** Strings *)

Lemma append_nil_r (s : string) : s ++ EmptyString = s.
Proof. induction s as [|c s IH]; simpl; congruence. Qed.

Lemma append_assoc (a b c : string) : (a ++ b) ++ c = a ++ b ++ c.
Proof. induction a as [|x a IH]; simpl; congruence. Qed.

Lemma length_append (a b : string) :
  String.length (a ++ b) = (String.length a + String.length b)%nat.
Proof. induction a as [|x a IH]; simpl; congruence. Qed.

Lemma join_app (l1 l2 : list string) : join (l1 ++ l2) = join l1 ++ join l2.
Proof.
  induction l1 as [|x l1 IH]; simpl; [reflexivity|].
  rewrite IH, append_assoc. reflexivity.
Qed.

(** ** Matching, one character at a time *)

Lemma FindAllString_unfold s :
  regexp.FindAllString s =
  match regexp.leftmost s with
  | Some (pre, m, rest) => m :: regexp.FindAllString rest
  | None => []
  end.
Proof.
  rewrite regexp.FindAllString_equation_1.
  destruct (regexp.inspect (regexp.leftmost s)) as [o e].
  transitivity (match o with
                | Some (pre, m, rest) => m :: regexp.FindAllString rest
                | None => []
                end); [|rewrite e; reflexivity].
  destruct o as [[[pre m] rest]|]; reflexivity.
Qed.

Lemma ReplaceAllStringFunc_unfold {St} src
    (repl : string -> St -> string * St) st :
  regexp.ReplaceAllStringFunc src repl st =
  match regexp.leftmost src with
  | Some (pre, m, rest) =>
      let (new, st1) := repl m st in
      let (out, st2) := regexp.ReplaceAllStringFunc rest repl st1 in
      (pre ++ new ++ out, st2)
  | None => (src, st)
  end.
Proof.
  rewrite regexp.ReplaceAllStringFunc_equation_1.
  destruct (regexp.inspect (regexp.leftmost src)) as [o e].
  transitivity (match o with
                | Some (pre, m, rest) =>
                    let (new, st1) := repl m st in
                    let (out, st2) :=
                      regexp.ReplaceAllStringFunc rest repl st1 in
                    (pre ++ new ++ out, st2)
                | None => (src, st)
                end); [|rewrite e; reflexivity].
  destruct o as [[[pre m] rest]|]; reflexivity.
Qed.

Lemma FindAllString_plain c s :
  Ascii.eqb c regexp.colon = false ->
  regexp.FindAllString (String c s) = regexp.FindAllString s.
Proof.
  intros Hc. rewrite (FindAllString_unfold (String c s)), (FindAllString_unfold s).
  simpl. rewrite Hc.
  destruct (regexp.leftmost s) as [[[pre m] rest]|]; reflexivity.
Qed.

Lemma FindAllString_colon s :
  regexp.FindAllString (String regexp.colon s) =
  String regexp.colon (regexp.star_word s).1
  :: regexp.FindAllString (regexp.star_word s).2.
Proof.
  rewrite FindAllString_unfold. simpl.
  destruct (regexp.star_word s) as [k rest]; reflexivity.
Qed.

Lemma ReplaceAllStringFunc_plain {St} c s
    (repl : string -> St -> string * St) st :
  Ascii.eqb c regexp.colon = false ->
  regexp.ReplaceAllStringFunc (String c s) repl st =
  let (out, st') := regexp.ReplaceAllStringFunc s repl st in
  (String c out, st').
Proof.
  intros Hc.
  rewrite (ReplaceAllStringFunc_unfold (String c s)),
    (ReplaceAllStringFunc_unfold s).
  simpl. rewrite Hc.
  destruct (regexp.leftmost s) as [[[pre m] rest]|]; [|reflexivity].
  destruct (repl m st) as [new st1].
  destruct (regexp.ReplaceAllStringFunc rest repl st1); reflexivity.
Qed.

Lemma ReplaceAllStringFunc_colon {St} s
    (repl : string -> St -> string * St) st :
  regexp.ReplaceAllStringFunc (String regexp.colon s) repl st =
  let (new, st1) := repl (String regexp.colon (regexp.star_word s).1) st in
  let (out, st2) :=
    regexp.ReplaceAllStringFunc (regexp.star_word s).2 repl st1 in
  (new ++ out, st2).
Proof.
  rewrite ReplaceAllStringFunc_unfold. simpl.
  destruct (regexp.star_word s) as [k rest]; reflexivity.
Qed.

Lemma star_word_app k s :
  all_word k = true -> begins_with_word s = false ->
  regexp.star_word (k ++ s) = (k, s).
Proof.
  intros Hk Hs. induction k as [|c k IH]; simpl in *.
  - destruct s as [|c s]; [reflexivity|]. simpl in *. rewrite Hs. reflexivity.
  - apply andb_prop in Hk as [Hc Hk]. rewrite Hc, (IH Hk). reflexivity.
Qed.

Lemma word_not_colon c : regexp.word c = true -> Ascii.eqb c regexp.colon = false.
Proof.
  intros Hw. destruct (Ascii.eqb_spec c regexp.colon) as [->|]; [|reflexivity].
  discriminate Hw.
Qed.

(** ** Token sequences *)

Lemma source_plain c ts : source (Plain c :: ts) = String c (source ts).
Proof. reflexivity. Qed.

Lemma source_placeholder k ts :
  source (Placeholder k :: ts) = String regexp.colon (k ++ source ts).
Proof. reflexivity. Qed.

Lemma source_app ts1 ts2 : source (ts1 ++ ts2) = source ts1 ++ source ts2.
Proof.
  induction ts1 as [|t ts1 IH]; simpl; [reflexivity|].
  rewrite IH, append_assoc. reflexivity.
Qed.

Lemma begins_source ts :
  well_formed ts = true -> begins_with_word (source ts) = next_is_word ts.
Proof.
  destruct ts as [|[c|k] ts]; reflexivity.
Qed.

Lemma leading_word_spec ts :
  well_formed ts = true ->
  source ts = (leading_word ts).1 ++ source (leading_word ts).2
  /\ all_word (leading_word ts).1 = true
  /\ next_is_word (leading_word ts).2 = false
  /\ well_formed (leading_word ts).2 = true.
Proof.
  induction ts as [|[c|k] ts IH]; simpl; intros Hwf.
  - auto.
  - apply andb_prop in Hwf as [Hc Hwf].
    destruct (regexp.word c) eqn:Hw.
    + specialize (IH Hwf). destruct (leading_word ts) as [k rest]; simpl in *.
      destruct IH as (Hs & Hk & Hn & Hr).
      rewrite ?source_plain, Hw, Hs. auto.
    + simpl. rewrite Hw, Hc, Hwf. auto.
  - simpl. rewrite Hwf. auto.
Qed.

(** Every template is the source of its token sequence, which is
    well-formed, and no other well-formed sequence has that source. *)
Lemma tokens_well_formed s : well_formed (tokens s) = true.
Proof.
  induction s as [|c s IH]; simpl; [reflexivity|].
  destruct (Ascii.eqb c regexp.colon) eqn:Hc.
  - destruct (leading_word_spec _ IH) as (_ & Hk & Hn & Hr).
    destruct (leading_word (tokens s)) as [k rest]; simpl in *.
    rewrite Hk, Hn, Hr. reflexivity.
  - simpl. rewrite Hc, IH. reflexivity.
Qed.

Lemma tokens_source s : source (tokens s) = s.
Proof.
  induction s as [|c s IH]; simpl; [reflexivity|].
  destruct (Ascii.eqb_spec c regexp.colon) as [->|Hc].
  - destruct (leading_word_spec _ (tokens_well_formed s)) as (Hs & _).
    destruct (leading_word (tokens s)) as [k rest]; simpl in *.
    rewrite ?source_placeholder, <- Hs, IH. reflexivity.
  - rewrite ?source_plain, IH. reflexivity.
Qed.

Lemma tokens_word_prefix k s :
  all_word k = true ->
  leading_word (tokens (k ++ s)) =
  ((k ++ (leading_word (tokens s)).1)%string, (leading_word (tokens s)).2).
Proof.
  intros Hk. induction k as [|c k IH]; simpl in *.
  - destruct (leading_word (tokens s)); reflexivity.
  - apply andb_prop in Hk as [Hc Hk].
    rewrite (word_not_colon _ Hc). simpl. rewrite Hc, (IH Hk). reflexivity.
Qed.

Lemma leading_word_stop ts :
  next_is_word ts = false -> leading_word ts = (EmptyString, ts).
Proof.
  destruct ts as [|[c|k] ts]; simpl; try reflexivity.
  intros ->. reflexivity.
Qed.

Lemma tokens_unique ts : well_formed ts = true -> tokens (source ts) = ts.
Proof.
  induction ts as [|[c|k] ts IH]; simpl; intros Hwf; [reflexivity| |].
  - apply andb_prop in Hwf as [Hc Hwf].
    apply negb_true_iff in Hc.
    rewrite ?source_plain. simpl. rewrite Hc, (IH Hwf). reflexivity.
  - apply andb_prop in Hwf as [Hk Hwf]. apply andb_prop in Hk as [Hk Hn].
    apply negb_true_iff in Hn.
    rewrite ?source_placeholder. simpl.
    rewrite (tokens_word_prefix _ _ Hk), (IH Hwf), (leading_word_stop _ Hn).
    simpl. rewrite append_nil_r. reflexivity.
Qed.

Lemma keys_bound ts :
  (length (keys ts) <= String.length (source ts))%nat.
Proof.
  induction ts as [|[c|k] ts IH]; simpl; [lia| |].
  - rewrite ?source_plain. simpl. lia.
  - rewrite ?source_placeholder. simpl. rewrite length_append. lia.
Qed.

(** ** The regular expression and the token sequence agree *)

Lemma FindAllString_source ts :
  well_formed ts = true ->
  regexp.FindAllString (source ts) = String regexp.colon <$> keys ts.
Proof.
  induction ts as [|[c|k] ts IH]; simpl; intros Hwf.
  - rewrite FindAllString_unfold. reflexivity.
  - apply andb_prop in Hwf as [Hc Hwf]. apply negb_true_iff in Hc.
    rewrite (FindAllString_plain _ _ Hc). auto.
  - apply andb_prop in Hwf as [Hk Hwf]. apply andb_prop in Hk as [Hk Hn].
    apply negb_true_iff in Hn. rewrite <- (begins_source _ Hwf) in Hn.
    fold regexp.colon.
    rewrite FindAllString_colon, (star_word_app _ _ Hk Hn). simpl.
    rewrite (IH Hwf). reflexivity.
Qed.

Lemma ReplaceAllStringFunc_source {St} ts
    (repl : string -> St -> string * St) st :
  well_formed ts = true ->
  regexp.ReplaceAllStringFunc (source ts) repl st = replace_tokens repl st ts.
Proof.
  revert st. induction ts as [|[c|k] ts IH]; simpl; intros st Hwf.
  - rewrite ReplaceAllStringFunc_unfold. reflexivity.
  - apply andb_prop in Hwf as [Hc Hwf]. apply negb_true_iff in Hc.
    rewrite (ReplaceAllStringFunc_plain _ _ _ _ Hc), (IH _ Hwf). reflexivity.
  - apply andb_prop in Hwf as [Hk Hwf]. apply andb_prop in Hk as [Hk Hn].
    apply negb_true_iff in Hn. rewrite <- (begins_source _ Hwf) in Hn.
    fold regexp.colon.
    rewrite ReplaceAllStringFunc_colon, (star_word_app _ _ Hk Hn). simpl.
    destruct (repl (String regexp.colon k) st) as [new st1].
    rewrite (IH _ Hwf). reflexivity.
Qed.

Lemma FindAllString_tokens sql :
  regexp.FindAllString sql = String regexp.colon <$> keys (tokens sql).
Proof.
  rewrite <- (tokens_source sql) at 1.
  apply FindAllString_source, tokens_well_formed.
Qed.

Lemma ReplaceAllStringFunc_tokens {St} sql
    (repl : string -> St -> string * St) st :
  regexp.ReplaceAllStringFunc sql repl st = replace_tokens repl st (tokens sql).
Proof.
  rewrite <- (tokens_source sql) at 1.
  apply ReplaceAllStringFunc_source, tokens_well_formed.
Qed.

(** ** The two placeholder styles *)

Lemma wrap_int_small z : - 2 ^ 63 <= z < 2 ^ 63 -> wrap_int z = z.
Proof.
  intros Hz. unfold wrap_int.
  rewrite Z.mod_small by lia. lia.
Qed.

Lemma replace_tokens_pgx ts n :
  Z.of_nat (n + length (keys ts)) < 2 ^ 63 ->
  replace_tokens pgx_placeholder (Z.of_nat n) ts =
  (rewritten dollar n ts, Z.of_nat (n + length (keys ts))).
Proof.
  revert n.
  induction ts as [|[c|k] ts IH]; intros n Hn;
    cbn [replace_tokens keys rewritten length] in *.
  - rewrite Nat.add_0_r. reflexivity.
  - rewrite (IH n Hn). reflexivity.
  - unfold pgx_placeholder at 1. cbv zeta.
    assert (Hw : wrap_int (Z.of_nat n + 1) = Z.of_nat (S n)).
    { rewrite wrap_int_small; lia. }
    rewrite Hw, (IH (S n)) by lia.
    unfold dollar. do 2 f_equal. lia.
Qed.

Lemma replace_tokens_question ts n :
  replace_tokens (fun _ (u : unit) => ("?", u)) tt ts =
  (rewritten question n ts, tt).
Proof.
  revert n. induction ts as [|[c|k] ts IH]; simpl; intros n.
  - reflexivity.
  - rewrite (IH n). reflexivity.
  - rewrite (IH (S n)). reflexivity.
Qed.

Lemma compiled_rewritten driver sql :
  Z.of_nat (String.length sql) < 2 ^ 63 ->
  compiled driver sql = rewritten (marker_of driver) 0 (tokens sql).
Proof.
  intros Hlen. unfold compiled, marker_of, regexp.ReplaceAllString.
  rewrite !ReplaceAllStringFunc_tokens.
  destruct (String.eqb driver "pgx").
  - pose proof (keys_bound (tokens sql)) as Hk. rewrite tokens_source in Hk.
    change 0 with (Z.of_nat 0). rewrite replace_tokens_pgx by (simpl; lia).
    reflexivity.
  - rewrite (replace_tokens_question _ 0). reflexivity.
Qed.

Lemma compiled_other driver sql :
  driver <> "pgx" ->
  compiled driver sql = rewritten question 0 (tokens sql).
Proof.
  intros Hd. unfold compiled, regexp.ReplaceAllString.
  apply String.eqb_neq in Hd. rewrite Hd, ReplaceAllStringFunc_tokens.
  rewrite (replace_tokens_question _ 0). reflexivity.
Qed.

(** ** Running [generateQuery] *)

Lemma range_matchs_run ks acc st :
  range_matchs (String regexp.colon <$> ks) acc st =
  (match first_missing (valuesMap st) ks with
   | Some key => inl (not_found_error key)
   | None => inr (acc ++ values_of (valuesMap st) ks)%list
   end, st).
Proof.
  revert acc. induction ks as [|k ks IH]; simpl; intros acc.
  - unfold ret, values_of. simpl. rewrite app_nil_r. reflexivity.
  - unfold bind, map_index, first_missing, missing, values_of. simpl.
    destruct (valuesMap st !! k) as [v|] eqn:Hk.
    + rewrite bool_decide_eq_false_2 by congruence.
      rewrite IH. unfold first_missing, missing, values_of.
      destruct (find _ ks); [reflexivity|].
      rewrite <- app_assoc. reflexivity.
    + rewrite bool_decide_eq_true_2 by reflexivity. reflexivity.
Qed.

Lemma generateQuery_run sql st :
  generateQuery sql st =
  (match first_missing (valuesMap st) (keys (tokens sql)) with
   | Some key => (EmptyString, [], Some (not_found_error key))
   | None =>
       (compiled (Driver (receiver st)) sql,
        values_of (valuesMap st) (keys (tokens sql)), None)
   end, st).
Proof.
  unfold generateQuery, bind.
  rewrite FindAllString_tokens, range_matchs_run.
  destruct (first_missing _ _); [reflexivity|].
  unfold this, compiled, ret. simpl.
  destruct (String.eqb (Driver (receiver st)) "pgx"); [|reflexivity].
  destruct (regexp.ReplaceAllStringFunc sql pgx_placeholder 0); reflexivity.
Qed.

Lemma first_missing_none m ks :
  first_missing m ks = None <-> forall key, key ∈ ks -> is_Some (m !! key).
Proof.
  unfold first_missing. induction ks as [|k ks IH]; simpl.
  - split; [intros _ key Hin; inversion Hin | reflexivity].
  - unfold missing at 1. destruct (m !! k) as [v|] eqn:Hk.
    + rewrite bool_decide_eq_false_2 by congruence.
      rewrite IH. split.
      * intros H key Hin. apply elem_of_cons in Hin as [->|Hin]; eauto.
      * intros H key Hin. apply H. right. exact Hin.
    + rewrite bool_decide_eq_true_2 by reflexivity.
      split; [discriminate|]. intros H.
      destruct (H k) as [v Hv]; [left|congruence].
Qed.

Lemma first_missing_some m ks key :
  first_missing m ks = Some key ->
  exists before after,
    ks = (before ++ key :: after)%list /\ m !! key = None
    /\ forall k, k ∈ before -> is_Some (m !! k).
Proof.
  unfold first_missing. induction ks as [|k ks IH]; simpl; [discriminate|].
  unfold missing at 1. destruct (m !! k) as [v|] eqn:Hk.
  - rewrite bool_decide_eq_false_2 by congruence. intros H.
    destruct (IH H) as (before & after & -> & Hnone & Hall).
    exists (k :: before), after. split; [reflexivity|]. split; [exact Hnone|].
    intros k' Hin. apply elem_of_cons in Hin as [->|Hin]; eauto.
  - rewrite bool_decide_eq_true_2 by reflexivity. intros [= <-].
    exists [], ks. split; [reflexivity|]. split; [exact Hk|].
    intros k' Hin. inversion Hin.
Qed.

Lemma values_of_present m ks :
  (forall key, key ∈ ks -> is_Some (m !! key)) ->
  Some <$> values_of m ks = (fun key => m !! key) <$> ks.
Proof.
  unfold values_of. induction ks as [|k ks IH]; simpl; intros H; [reflexivity|].
  destruct (H k) as [v Hv]; [left|].
  rewrite Hv. simpl. f_equal. apply IH.
  intros key Hin. apply H. right. exact Hin.
Qed.

Lemma first_missing_agree m m' ks :
  (forall key, key ∈ ks -> m' !! key = m !! key) ->
  first_missing m' ks = first_missing m ks.
Proof.
  unfold first_missing. induction ks as [|k ks IH]; simpl; intros H.
  - reflexivity.
  - unfold missing at 1 3. rewrite (H k) by left.
    rewrite IH; [reflexivity|]. intros key Hin. apply H. right. exact Hin.
Qed.

Lemma values_of_agree m m' ks :
  (forall key, key ∈ ks -> m' !! key = m !! key) ->
  values_of m' ks = values_of m ks.
Proof.
  unfold values_of. induction ks as [|k ks IH]; simpl; intros H.
  - reflexivity.
  - rewrite (H k) by left.
    assert (Hks : forall key, key ∈ ks -> m' !! key = m !! key).
    { intros key Hin. apply H. right. exact Hin. }
    destruct (m !! k); [f_equal|]; apply (IH Hks).
Qed.

Lemma values_of_app m ks1 ks2 :
  values_of m (ks1 ++ ks2) = (values_of m ks1 ++ values_of m ks2)%list.
Proof. apply omap_app. Qed.

Lemma keys_app ts1 ts2 : keys (ts1 ++ ts2) = (keys ts1 ++ keys ts2)%list.
Proof.
  induction ts1 as [|[c|k] ts1 IH]; simpl; [reflexivity|exact IH|].
  rewrite IH. reflexivity.
Qed.

Lemma rewritten_app marker n ts1 ts2 :
  rewritten marker n (ts1 ++ ts2) =
  rewritten marker n ts1
  ++ rewritten marker (n + length (keys ts1)) ts2.
Proof.
  revert n. induction ts1 as [|[c|k] ts1 IH]; simpl; intros n.
  - rewrite Nat.add_0_r. reflexivity.
  - rewrite IH. reflexivity.
  - rewrite IH, append_assoc, Nat.add_succ_r. reflexivity.
Qed.

Lemma leading_word_before_placeholder ts1 k ts2 :
  leading_word (ts1 ++ Placeholder k :: ts2) =
  ((leading_word ts1).1, ((leading_word ts1).2 ++ Placeholder k :: ts2)%list).
Proof.
  induction ts1 as [|[c|k1] ts1 IH]; simpl; try reflexivity.
  destruct (regexp.word c); [|reflexivity].
  rewrite IH. destruct (leading_word ts1); reflexivity.
Qed.

Lemma tokens_before_colon pre post :
  tokens (pre ++ String regexp.colon post) =
  (tokens pre ++ tokens (String regexp.colon post))%list.
Proof.
  induction pre as [|c pre IH]; [reflexivity|].
  change (String c pre ++ String regexp.colon post)
    with (String c (pre ++ String regexp.colon post)).
  cbn [tokens]. rewrite IH.
  destruct (Ascii.eqb c regexp.colon); [|reflexivity].
  cbn [tokens]. rewrite Ascii.eqb_refl.
  destruct (leading_word (tokens post)) as [k rest].
  rewrite leading_word_before_placeholder.
  destruct (leading_word (tokens pre)); reflexivity.
Qed.

Lemma tokens_bare_colon pre post :
  begins_with_word post = false ->
  tokens (pre ++ String regexp.colon post) =
  (tokens pre ++ Placeholder EmptyString :: tokens post)%list.
Proof.
  intros Hpost. rewrite tokens_before_colon. f_equal.
  cbn [tokens]. rewrite Ascii.eqb_refl.
  rewrite leading_word_stop; [reflexivity|].
  rewrite <- (begins_source _ (tokens_well_formed post)), tokens_source.
  exact Hpost.
Qed.

(** ** What the specification states about [generateQuery] *)

(** C1. When the value map has an entry for every key that a placeholder of
    the template refers to, [generateQuery] succeeds (and leaves the store
    as it was); its argument list has one entry per placeholder occurrence,
    the [i]-th being the value the map holds for the key of the [i]-th
    occurrence from the left, so that two occurrences of one key carry
    equal arguments. *)
Theorem generateQuery_arguments (sql : string) (st : Store) :
  (forall key, key ∈ keys (tokens sql) -> is_Some (valuesMap st !! key)) ->
  exists sql' args,
    generateQuery sql st = ((sql', args, None), st)
    /\ length args = length (keys (tokens sql))
    /\ (forall i key, keys (tokens sql) !! i = Some key ->
          args !! i = valuesMap st !! key)
    /\ (forall i j key, keys (tokens sql) !! i = Some key ->
          keys (tokens sql) !! j = Some key -> args !! i = args !! j).
Proof.
  intros Hall.
  pose proof (values_of_present _ _ Hall) as Hvals.
  assert (Hnth : forall i key, keys (tokens sql) !! i = Some key ->
            values_of (valuesMap st) (keys (tokens sql)) !! i
            = valuesMap st !! key).
  { intros i key Hi.
    assert (H : (Some <$> values_of (valuesMap st) (keys (tokens sql))) !! i
                = Some (valuesMap st !! key)).
    { rewrite Hvals, list_lookup_fmap, Hi. reflexivity. }
    rewrite list_lookup_fmap in H.
    destruct (values_of _ _ !! i) as [v|]; simpl in H; [|discriminate].
    injection H as <-. reflexivity. }
  eexists _, _. rewrite generateQuery_run.
  rewrite (proj2 (first_missing_none _ _) Hall).
  split; [reflexivity|]. split; [|split].
  - rewrite <- (length_fmap Some), Hvals, length_fmap. reflexivity.
  - exact Hnth.
  - intros i j key Hi Hj. rewrite (Hnth _ _ Hi), (Hnth _ _ Hj). reflexivity.
Qed.

(** C2. When every referenced key has a value, the statement returned for
    the driver ["pgx"] is the template with its [n]-th placeholder
    occurrence (counted from one, from the left) replaced by ["$n"]; for
    every other driver each occurrence is replaced by ["?"]; the characters
    that belong to no placeholder are kept as they are.  The template is a
    Go string, so its length fits in an [int]. *)
Theorem generateQuery_rewrites (sql : string) (st : Store) :
  Z.of_nat (String.length sql) < 2 ^ 63 ->
  (forall key, key ∈ keys (tokens sql) -> is_Some (valuesMap st !! key)) ->
  source (tokens sql) = sql
  /\ exists sql' args,
       generateQuery sql st = ((sql', args, None), st)
       /\ (Driver (receiver st) = "pgx" ->
           sql' = rewritten (fun n => "$" ++ Itoa (Z.of_nat n)) 0 (tokens sql))
       /\ (Driver (receiver st) <> "pgx" ->
           sql' = rewritten (fun _ => "?") 0 (tokens sql)).
Proof.
  intros Hlen Hall. split; [apply tokens_source|].
  eexists _, _. rewrite generateQuery_run.
  rewrite (proj2 (first_missing_none _ _) Hall).
  split; [reflexivity|]. split.
  - intros ->. rewrite (compiled_rewritten _ _ Hlen). reflexivity.
  - intros Hd. apply (compiled_other _ _ Hd).
Qed.

(** C3. [generateQuery] fails exactly when the key of some placeholder
    occurrence has no entry in the value map.  It then returns the empty
    string, no arguments and the error that names the first such key in the
    order of the occurrences, every key before it having an entry.  A map
    that agrees with another one on the referenced keys gives the same
    result, whatever other keys it holds. *)
Theorem generateQuery_fails_iff_missing (sql : string) (st : Store) :
  match first_missing (valuesMap st) (keys (tokens sql)) with
  | Some key =>
      generateQuery sql st
      = ((EmptyString, [], Some (key ++ " not found in metric")), st)
      /\ exists before after,
           keys (tokens sql) = (before ++ key :: after)%list
           /\ valuesMap st !! key = None
           /\ forall k, k ∈ before -> is_Some (valuesMap st !! k)
  | None =>
      exists sql' args, generateQuery sql st = ((sql', args, None), st)
  end
  /\ ((generateQuery sql st).1.2 <> None <->
      exists key, key ∈ keys (tokens sql) /\ valuesMap st !! key = None)
  /\ (forall st',
        Driver (receiver st') = Driver (receiver st) ->
        (forall key, key ∈ keys (tokens sql) ->
           valuesMap st' !! key = valuesMap st !! key) ->
        (generateQuery sql st').1 = (generateQuery sql st).1).
Proof.
  split; [|split].
  - rewrite generateQuery_run.
    destruct (first_missing _ _) as [key|] eqn:Hfm.
    + split; [reflexivity|]. apply first_missing_some, Hfm.
    + eauto.
  - rewrite generateQuery_run.
    destruct (first_missing _ _) as [key|] eqn:Hfm; simpl.
    + split; [|intros _; discriminate]. intros _.
      apply first_missing_some in Hfm as (before & after & Hks & Hnone & _).
      exists key. split; [|exact Hnone].
      rewrite Hks. apply elem_of_app. right. left.
    + split; [intros H; contradiction H; reflexivity|].
      intros (key & Hin & Hnone).
      destruct (proj1 (first_missing_none _ _) Hfm key Hin) as [v Hv].
      congruence.
  - intros st' Hd Hagree. rewrite !generateQuery_run. simpl.
    rewrite (first_missing_agree _ _ _ Hagree), (values_of_agree _ _ _ Hagree).
    rewrite Hd. reflexivity.
Qed.

(** C8. A call of [generateQuery] leaves the store as it found it: the
    plugin (with its templates), the value map and the log.  Its result is
    determined by the template, the driver and the value map alone, and two
    calls in a row on the same template return the same result. *)
Theorem generateQuery_pure (sql : string) (st : Store) :
  (generateQuery sql st).2 = st
  /\ (forall st',
        Driver (receiver st') = Driver (receiver st) ->
        valuesMap st' = valuesMap st ->
        (generateQuery sql st').1 = (generateQuery sql st).1)
  /\ (do a <- generateQuery sql ;; do b <- generateQuery sql ;; ret (a, b)) st
     = (((generateQuery sql st).1, (generateQuery sql st).1), st).
Proof.
  split; [|split].
  - rewrite generateQuery_run. reflexivity.
  - intros st' Hd Hm. rewrite !generateQuery_run. simpl.
    rewrite Hd, Hm. reflexivity.
  - unfold bind, ret. rewrite !generateQuery_run. reflexivity.
Qed.

Lemma values_of_cons_some m k ks v :
  m !! k = Some v -> values_of m (k :: ks) = v :: values_of m ks.
Proof. intros H. unfold values_of. simpl. rewrite H. reflexivity. Qed.

(** C9, as the specification words it, does not hold: in [":a :"] the last
    colon is bare and the empty map has no entry under the empty key, yet
    the error names [a], the key of the first placeholder. *)
Lemma bare_colon_error_names_first_missing_key :
  let st := store_of newSQL ∅ in
  begins_with_word EmptyString = false
  /\ valuesMap st !! EmptyString = None
  /\ (generateQuery (":a " ++ ":" ++ EmptyString) st).1
     = (EmptyString, [], Some "a not found in metric")
  /\ ~ (forall pre post st,
          begins_with_word post = false ->
          valuesMap st !! EmptyString = None ->
          (generateQuery (pre ++ ":" ++ post) st).1
          = (EmptyString, [], Some (not_found_error EmptyString))).
Proof.
  cbv zeta.
  assert (Hrun : (generateQuery (":a " ++ ":" ++ EmptyString)
                    (store_of newSQL ∅)).1
                 = (EmptyString, [], Some "a not found in metric")).
  { rewrite generateQuery_run. reflexivity. }
  split; [reflexivity|]. split; [reflexivity|]. split; [exact Hrun|].
  intros Hclaim.
  specialize (Hclaim ":a " EmptyString (store_of newSQL ∅) eq_refl eq_refl).
  rewrite Hrun in Hclaim. discriminate Hclaim.
Qed.

(** C9 (amended). A colon that is not followed by a word character is a
    placeholder occurrence with the empty key.  If the value map has no
    entry under the empty key, [generateQuery] fails with a missing-key
    error, which names the empty key when every placeholder before that
    colon has its value.  If every referenced key has a value, the colon is
    rewritten to the marker of its rank and the value held under the empty
    key is the argument of that rank. *)
Theorem bare_colon_is_empty_placeholder (pre post : string) (st : Store) :
  begins_with_word post = false ->
  Z.of_nat (String.length (pre ++ ":" ++ post)) < 2 ^ 63 ->
  let sql := pre ++ ":" ++ post in
  let n := length (keys (tokens pre)) in
  let marker := marker_of (Driver (receiver st)) in
  tokens sql = (tokens pre ++ Placeholder EmptyString :: tokens post)%list
  /\ (valuesMap st !! EmptyString = None ->
      exists key,
        generateQuery sql st
        = ((EmptyString, [], Some (key ++ " not found in metric")), st)
        /\ ((forall k, k ∈ keys (tokens pre) -> is_Some (valuesMap st !! k))
            -> key = EmptyString))
  /\ (forall v,
        valuesMap st !! EmptyString = Some v ->
        (forall k, k ∈ keys (tokens sql) -> is_Some (valuesMap st !! k)) ->
        exists args,
          generateQuery sql st
          = ((rewritten marker 0 (tokens pre) ++ marker (S n)
              ++ rewritten marker (S n) (tokens post), args, None), st)
          /\ args !! n = Some v
          /\ length args = S (n + length (keys (tokens post)))).
Proof.
  intros Hpost Hlen sql n marker.
  assert (Htok : tokens sql
                 = (tokens pre ++ Placeholder EmptyString :: tokens post)%list).
  { apply (tokens_bare_colon pre post Hpost). }
  split; [exact Htok|]. split.
  - intros Hnone. rewrite generateQuery_run.
    destruct (first_missing _ _) as [key|] eqn:Hfm.
    + exists key. split; [reflexivity|]. intros Hpre.
      apply first_missing_some in Hfm as (before & after & Hks & Hk & Hbefore).
      rewrite Htok, keys_app in Hks. simpl in Hks.
      clear -Hks Hk Hbefore Hpre Hnone.
      revert before Hks Hbefore.
      induction (keys (tokens pre)) as [|k ks IH]; intros before Hks Hbefore.
      * destruct before as [|b before]; simpl in Hks.
        -- injection Hks as <- _. reflexivity.
        -- injection Hks as <- _.
           destruct (Hbefore EmptyString) as [v Hv]; [left|congruence].
      * destruct before as [|b before]; simpl in Hks.
        -- injection Hks as <- _.
           destruct (Hpre k) as [v Hv]; [left|congruence].
        -- injection Hks as <- Hks.
           apply (IH (fun k' Hin => Hpre k' (list_elem_of_further _ _ _ Hin))
                    before Hks).
           intros k' Hin. apply Hbefore. right. exact Hin.
    + pose proof (proj1 (first_missing_none _ _) Hfm EmptyString) as H.
      destruct H as [v Hv]; [|congruence].
      rewrite Htok, keys_app. apply elem_of_app. right. left.
  - intros v Hv Hall. eexists. rewrite generateQuery_run.
    rewrite (proj2 (first_missing_none _ _) Hall).
    rewrite (compiled_rewritten _ _ Hlen).
    fold sql. rewrite Htok, rewritten_app, keys_app, values_of_app.
    cbn [rewritten keys]. fold n. rewrite Nat.add_0_l.
    split; [reflexivity|].
    assert (Hn : length (values_of (valuesMap st) (keys (tokens pre))) = n).
    { rewrite <- (length_fmap Some), values_of_present, length_fmap;
        [reflexivity|].
      intros k Hin. apply Hall. rewrite Htok, keys_app.
      apply elem_of_app. left. exact Hin. }
    assert (Hp : length (values_of (valuesMap st) (keys (tokens post)))
                 = length (keys (tokens post))).
    { rewrite <- (length_fmap Some), values_of_present, length_fmap;
        [reflexivity|].
      intros k Hin. apply Hall. rewrite Htok, keys_app.
      apply elem_of_app. right. right. exact Hin. }
    rewrite (values_of_cons_some _ _ _ _ Hv). split.
    + rewrite lookup_app_r by lia. rewrite Hn, Nat.sub_diag. reflexivity.
    + rewrite length_app, Hn. simpl. rewrite Hp. lia.
Qed.

(** The plugin's own test is an instance of C1 ... *)
Lemma generateQuery_arguments_witness :
  (forall key, key ∈ keys (tokens test_query) ->
     is_Some (valuesMap test_store !! key))
  /\ exists sql' args,
       generateQuery test_query test_store = ((sql', args, None), test_store)
       /\ length args = length (keys (tokens test_query))
       /\ (forall i key, keys (tokens test_query) !! i = Some key ->
             args !! i = valuesMap test_store !! key)
       /\ (forall i j key, keys (tokens test_query) !! i = Some key ->
             keys (tokens test_query) !! j = Some key -> args !! i = args !! j).
Proof.
  assert (H : forall key, key ∈ keys (tokens test_query) ->
                is_Some (valuesMap test_store !! key)).
  { intros key Hin. apply list_elem_of_In in Hin. simpl in Hin.
    destruct Hin as [<-|[<-|[]]]; eexists; reflexivity. }
  split; [exact H|]. exact (generateQuery_arguments test_query test_store H).
Defined.

(** ... and of C2. *)
Lemma generateQuery_rewrites_witness :
  Z.of_nat (String.length test_query) < 2 ^ 63
  /\ (forall key, key ∈ keys (tokens test_query) ->
        is_Some (valuesMap test_store !! key))
  /\ source (tokens test_query) = test_query
  /\ exists sql' args,
       generateQuery test_query test_store = ((sql', args, None), test_store)
       /\ (Driver (receiver test_store) = "pgx" ->
           sql' = rewritten (fun n => "$" ++ Itoa (Z.of_nat n)) 0
                    (tokens test_query))
       /\ (Driver (receiver test_store) <> "pgx" ->
           sql' = rewritten (fun _ => "?") 0 (tokens test_query)).
Proof.
  assert (Hlen : Z.of_nat (String.length test_query) < 2 ^ 63)
    by reflexivity.
  assert (H : forall key, key ∈ keys (tokens test_query) ->
                is_Some (valuesMap test_store !! key)).
  { intros key Hin. apply list_elem_of_In in Hin. simpl in Hin.
    destruct Hin as [<-|[<-|[]]]; eexists; reflexivity. }
  split; [exact Hlen|]. split; [exact H|].
  exact (generateQuery_rewrites test_query test_store Hlen H).
Defined.

(** An instance of C9 (amended): the colon of ["a: b"]. *)
Lemma bare_colon_is_empty_placeholder_witness :
  begins_with_word " b" = false
  /\ Z.of_nat (String.length ("a" ++ ":" ++ " b")) < 2 ^ 63
  /\ tokens ("a" ++ ":" ++ " b")
     = (tokens "a" ++ Placeholder EmptyString :: tokens " b")%list.
Proof.
  split; [reflexivity|]. split; [reflexivity|].
  exact (proj1 (bare_colon_is_empty_placeholder "a" " b" test_store
                  eq_refl eq_refl)).
Defined.

(** The end-to-end scenarios of the specification. *)
Example scenario_1 :
  (generateQuery test_query test_store).1
  = ("UPDATE $1 SET name=$2", [VString "users"; VString "telegraf"], None).
Proof. reflexivity. Qed.

Example scenario_2 :
  (generateQuery test_query
     (store_of (with_Driver "pgx" newSQL)
        (<["unused" := VString "unused"]>
           (<["metric" := VString "users"]> ∅)))).1
  = (EmptyString, [], Some "name not found in metric").
Proof. reflexivity. Qed.

Example scenario_3 :
  (generateQuery "INSERT INTO t VALUES(:a,:a)"
     (store_of (with_Driver "mysql" newSQL) (<["a" := VInt64 5]> ∅))).1
  = ("INSERT INTO t VALUES(?,?)", [VInt64 5; VInt64 5], None).
Proof. reflexivity. Qed.

(** ** The value map of a metric *)

Lemma range_assign_receiver kvs st :
  receiver (range_assign kvs st).2 = receiver st
  /\ logged (range_assign kvs st).2 = logged st.
Proof.
  revert st. induction kvs as [|[k v] kvs IH]; intros st; [split; reflexivity|].
  specialize (IH (map_assign k v st).2).
  simpl. unfold bind, map_assign in *. simpl in IH. exact IH.
Qed.

Lemma range_assign_lookup kvs st key :
  NoDup kvs.*1 ->
  valuesMap (range_assign kvs st).2 !! key =
  match (list_to_map kvs : gmap string value) !! key with
  | Some v => Some v
  | None => valuesMap st !! key
  end.
Proof.
  revert st. induction kvs as [|[k v] kvs IH]; intros st Hnd; [reflexivity|].
  rewrite fmap_cons in Hnd. apply NoDup_cons in Hnd as [Hk Hnd].
  simpl. unfold bind, map_assign. rewrite (IH _ Hnd). simpl.
  destruct (decide (k = key)) as [->|Hne].
  - rewrite lookup_insert_eq.
    rewrite (not_elem_of_list_to_map_1 _ _ Hk), lookup_insert_eq.
    reflexivity.
  - rewrite !lookup_insert_ne by exact Hne. reflexivity.
Qed.

Lemma iteration_lookup (m : gmap string value) kvs st key :
  iteration_of m kvs ->
  valuesMap (range_assign kvs st).2 !! key =
  match m !! key with
  | Some v => Some v
  | None => valuesMap st !! key
  end.
Proof.
  unfold iteration_of. intros Hperm.
  assert (Hnd : NoDup kvs.*1).
  { rewrite Hperm. apply NoDup_fst_map_to_list. }
  rewrite (range_assign_lookup _ _ _ Hnd).
  rewrite (list_to_map_proper kvs (map_to_list m) Hnd Hperm).
  rewrite list_to_map_to_list. reflexivity.
Qed.

Lemma iteration_lookup_tags (m : gmap string string) kvs st key :
  iteration_of m kvs ->
  valuesMap (range_assign (tag_entry <$> kvs) st).2 !! key =
  match m !! key with
  | Some t => Some (VString t)
  | None => valuesMap st !! key
  end.
Proof.
  intros Hperm.
  assert (Hit : iteration_of (VString <$> m) (tag_entry <$> kvs)).
  { unfold iteration_of in *. rewrite Hperm, map_to_list_fmap.
    reflexivity. }
  rewrite (iteration_lookup _ _ _ _ Hit), lookup_fmap.
  destruct (m !! key); reflexivity.
Qed.

(** C4. Whatever the order in which the three [range] loops visit their
    maps, the value map that [WriteMetric] builds for a metric holds, under
    every key, the field of that name if there is one, else the tag, else
    the configured default, else the built-in [metric] or [timestamp]
    entry; and nothing else of the store changes. *)
Theorem WriteMetric_valuesMap_precedence (metric : Metric)
    (defaults : list (string * value)) (tags : list (string * string))
    (fields : list (string * value)) (st : Store) :
  iteration_of (DefaultValues (receiver st)) defaults ->
  iteration_of (Tags metric) tags ->
  iteration_of (Fields metric) fields ->
  let st' := (WriteMetric_valuesMap metric defaults tags fields st).2 in
  (forall key, valuesMap st' !! key = resolved (receiver st) metric key)
  /\ receiver st' = receiver st
  /\ logged st' = logged st.
Proof.
  intros Hd Ht Hf st'.
  set (st0 := {| receiver := receiver st;
                 valuesMap := <["timestamp" := VTime (Time metric)]>
                                (<["metric" := VString (Name metric)]> ∅);
                 logged := logged st |}).
  set (st1 := (range_assign defaults st0).2).
  set (st2 := (range_assign (tag_entry <$> tags) st1).2).
  assert (Hrun : st' = (range_assign fields st2).2).
  { subst st' st2 st1 st0.
    unfold WriteMetric_valuesMap, bind, map_make, map_assign. simpl.
    destruct (range_assign defaults _) as [[] s1]. simpl.
    destruct (range_assign (tag_entry <$> tags) s1) as [[] s2]. reflexivity. }
  rewrite Hrun. clear Hrun st'.
  split; [|split].
  - intros key. unfold resolved.
    rewrite (iteration_lookup _ _ _ _ Hf).
    destruct (Fields metric !! key); [reflexivity|].
    unfold st2. rewrite (iteration_lookup_tags _ _ _ _ Ht).
    destruct (Tags metric !! key); [reflexivity|].
    unfold st1. rewrite (iteration_lookup _ _ _ _ Hd).
    destruct (DefaultValues (receiver st) !! key); [reflexivity|].
    unfold builtin, st0. simpl.
    destruct (String.eqb_spec key "timestamp") as [->|Hts].
    + rewrite lookup_insert_eq. reflexivity.
    + rewrite lookup_insert_ne by congruence.
      destruct (String.eqb_spec key "metric") as [->|Hm].
      * rewrite lookup_insert_eq. reflexivity.
      * rewrite lookup_insert_ne by congruence. apply lookup_empty.
  - unfold st2, st1.
    rewrite !(proj1 (range_assign_receiver _ _)). reflexivity.
  - unfold st2, st1.
    rewrite !(proj2 (range_assign_receiver _ _)). reflexivity.
Qed.

(** An instance of C4, the loops visiting their maps in the order of
    [map_to_list]. *)
Lemma WriteMetric_valuesMap_precedence_witness :
  let st := store_of (with_DefaultValues test_defaults newSQL) ∅ in
  let st' := (WriteMetric_valuesMap test_metric (map_to_list test_defaults)
                (map_to_list (Tags test_metric))
                (map_to_list (Fields test_metric)) st).2 in
  iteration_of (DefaultValues (receiver st)) (map_to_list test_defaults)
  /\ iteration_of (Tags test_metric) (map_to_list (Tags test_metric))
  /\ iteration_of (Fields test_metric) (map_to_list (Fields test_metric))
  /\ (forall key, valuesMap st' !! key = resolved (receiver st) test_metric key)
  /\ receiver st' = receiver st
  /\ logged st' = logged st.
Proof.
  cbv zeta.
  assert (Hd : iteration_of
                 (DefaultValues
                    (receiver (store_of (with_DefaultValues test_defaults
                                           newSQL) ∅)))
                 (map_to_list test_defaults))
    by (unfold iteration_of; reflexivity).
  assert (Ht : iteration_of (Tags test_metric)
                 (map_to_list (Tags test_metric)))
    by (unfold iteration_of; reflexivity).
  assert (Hf : iteration_of (Fields test_metric)
                 (map_to_list (Fields test_metric)))
    by (unfold iteration_of; reflexivity).
  split; [exact Hd|]. split; [exact Ht|]. split; [exact Hf|].
  exact (WriteMetric_valuesMap_precedence test_metric _ _ _ _ Hd Ht Hf).
Defined.

(** On that metric: the field wins over the tag and the default, the tag
    over the default, the default over the built-in entry. *)
Example precedence_on_collisions :
  let st := store_of (with_DefaultValues test_defaults newSQL) ∅ in
  let m := valuesMap
             (WriteMetric_valuesMap test_metric
                [("unit", VString "percent"); ("k", VString "default");
                 ("metric", VString "renamed"); ("host", VString "none")]
                [("host", "a"); ("k", "tag")]
                [("usage", VFloat64 0); ("k", VInt64 1)] st).2 in
  m !! "k" = Some (VInt64 1)
  /\ m !! "host" = Some (VString "a")
  /\ m !! "metric" = Some (VString "renamed")
  /\ m !! "unit" = Some (VString "percent")
  /\ m !! "timestamp" = Some (VTime 1700000000000000000)
  /\ m !! "usage" = Some (VFloat64 0).
Proof. vm_compute. repeat split. Qed.

(** ** [deriveDatatype] *)

(** An unsigned integer under a conversion style that is neither
    ["unsigned_suffix"] nor ["literal"]: the style is logged and the type
    name stays empty. *)
Lemma deriveDatatype_unknown_style n st :
  ConversionStyle (Convert (receiver st)) <> "unsigned_suffix" ->
  ConversionStyle (Convert (receiver st)) <> "literal" ->
  deriveDatatype (VUint64 n) st
  = (EmptyString,
     with_logged (Errorf_entry "unknown conversion style: %s"
                    [VString (ConversionStyle (Convert (receiver st)))]) st).
Proof.
  intros H1 H2. apply String.eqb_neq in H1, H2.
  unfold deriveDatatype, bind, this. rewrite H1, H2. reflexivity.
Qed.

(** C6 fails on the code for an unknown conversion style: with the style
    ["suffix"], [deriveDatatype] logs the error for an unsigned integer and
    returns the empty string, not the default type name ["TEXT"]. *)
Lemma deriveDatatype_unknown_style_returns_empty :
  let p := with_Convert (with_ConversionStyle "suffix" (Convert newSQL))
             newSQL in
  let st := store_of p ∅ in
  deriveDatatype (VUint64 7) st
  = (EmptyString,
     with_logged (Errorf_entry "unknown conversion style: %s"
                    [VString "suffix"]) st)
  /\ Defaultvalue (Convert p) = "TEXT"
  /\ (deriveDatatype (VUint64 7) st).1 <> Defaultvalue (Convert p).
Proof.
  cbv zeta. split; [reflexivity|]. split; [reflexivity|]. discriminate.
Qed.

(** For a value of an unknown kind the default type name is returned and
    one line is logged. *)
Lemma deriveDatatype_unknown_kind gotype repr st :
  deriveDatatype (VOther gotype repr) st
  = (Defaultvalue (Convert (receiver st)),
     with_logged (Errorf_entry "Unknown datatype: '%T' %v"
                    [VOther gotype repr; VOther gotype repr]) st).
Proof. reflexivity. Qed.

(** C10. For a timestamp [deriveDatatype] takes the branch of the unknown
    kinds: it logs the value and returns the configured default type name.
    The timestamp entry of the conversion table is never read: whatever it
    is set to, [deriveDatatype] returns the same type name and logs the same
    lines. *)
Theorem deriveDatatype_ignores_Timestamp (v : value) (st : Store) :
  (forall t,
     deriveDatatype (VTime t) st
     = (Defaultvalue (Convert (receiver st)),
        with_logged (Errorf_entry "Unknown datatype: '%T' %v"
                       [VTime t; VTime t]) st))
  /\ (forall name,
        let st' := with_receiver
                     (with_Convert
                        (with_Timestamp name (Convert (receiver st)))
                        (receiver st)) st in
        (deriveDatatype v st').1 = (deriveDatatype v st).1
        /\ logged (deriveDatatype v st').2 = logged (deriveDatatype v st).2).
Proof.
  split; [reflexivity|].
  intros name st'. subst st'. unfold deriveDatatype, bind, this. simpl.
  destruct v; try (split; reflexivity).
  destruct (String.eqb _ "unsigned_suffix"); [split; reflexivity|].
  destruct (String.eqb _ "literal"); split; reflexivity.
Qed.

(** ** Bytes and bit patterns *)

(** Quotients and remainders by constants are linear arithmetic. *)
Ltac Zify.zify_post_hook ::= Z.to_euclidean_division_equations.

Lemma byte_val_range c : 0 <= utf8.byte_val c < 256.
Proof.
  unfold utf8.byte_val. pose proof (N_ascii_bounded c). lia.
Qed.

Lemma byte_val_to_byte z : utf8.byte_val (utf8.to_byte z) = z mod 256.
Proof.
  unfold utf8.byte_val, utf8.to_byte.
  assert (H : 0 <= z mod 256 < 256) by (apply Z.mod_pos_bound; lia).
  rewrite N_ascii_embedding by lia. lia.
Qed.

Lemma to_byte_byte_val c : utf8.to_byte (utf8.byte_val c) = c.
Proof.
  unfold utf8.to_byte. pose proof (byte_val_range c).
  rewrite Z.mod_small by lia. unfold utf8.byte_val.
  rewrite N2Z.id. apply ascii_N_embedding.
Qed.

(** Two bit patterns that share no bit are added by [or]. *)
Lemma lor_add a b k :
  0 <= k -> a mod 2 ^ k = 0 -> 0 <= b < 2 ^ k -> Z.lor a b = a + b.
Proof.
  intros Hk Ha Hb.
  assert (Hland : Z.land a b = 0).
  { apply Z.bits_inj'. intros n Hn.
    rewrite Z.land_spec, Z.bits_0.
    destruct (Z.lt_ge_cases n k) as [Hlt|Hge].
    - rewrite <- (Z.mod_pow2_bits_low a k n Hlt), Ha, Z.bits_0. reflexivity.
    - rewrite <- (Z.mod_small b (2 ^ k)) by lia.
      rewrite Z.mod_pow2_bits_high by lia. apply andb_false_r. }
  pose proof (Z.add_lor_land a b). lia.
Qed.

Ltac pow2 :=
  change (2 ^ 3) with 8 in *; change (2 ^ 4) with 16 in *;
  change (2 ^ 5) with 32 in *; change (2 ^ 6) with 64 in *;
  change (2 ^ 12) with 4096 in *; change (2 ^ 18) with 262144 in *.

Lemma land_maskx x : Z.land x utf8.maskx = x mod 64.
Proof. apply (Z.land_ones x 6). lia. Qed.

Lemma land_mask2 x : Z.land x utf8.mask2 = x mod 32.
Proof. apply (Z.land_ones x 5). lia. Qed.

Lemma land_mask3 x : Z.land x utf8.mask3 = x mod 16.
Proof. apply (Z.land_ones x 4). lia. Qed.

Lemma land_mask4 x : Z.land x utf8.mask4 = x mod 8.
Proof. apply (Z.land_ones x 3). lia. Qed.

Lemma continuation x : Z.lor utf8.tx (Z.land x utf8.maskx) = 128 + x mod 64.
Proof.
  rewrite land_maskx. apply (lor_add 128 _ 6); pow2; [lia|reflexivity|lia].
Qed.

Lemma lead2 r : 0 <= r < 0x800 -> Z.lor utf8.t2 (Z.shiftr r 6) = 192 + r / 64.
Proof.
  intros Hr. rewrite Z.shiftr_div_pow2 by lia.
  apply (lor_add 192 _ 5); pow2; [lia|reflexivity|lia].
Qed.

Lemma lead3 r :
  0 <= r < 0x10000 -> Z.lor utf8.t3 (Z.shiftr r 12) = 224 + r / 4096.
Proof.
  intros Hr. rewrite Z.shiftr_div_pow2 by lia.
  apply (lor_add 224 _ 4); pow2; [lia|reflexivity|lia].
Qed.

Lemma lead4 r :
  0 <= r < 0x200000 -> Z.lor utf8.t4 (Z.shiftr r 18) = 240 + r / 262144.
Proof.
  intros Hr. rewrite Z.shiftr_div_pow2 by lia.
  apply (lor_add 240 _ 3); pow2; [lia|reflexivity|lia].
Qed.

Lemma decoded2 s0 b1 :
  Z.lor (Z.shiftl (Z.land s0 utf8.mask2) 6) (Z.land b1 utf8.maskx)
  = s0 mod 32 * 64 + b1 mod 64.
Proof.
  rewrite land_mask2, land_maskx, Z.shiftl_mul_pow2 by lia.
  apply (lor_add _ _ 6); pow2; lia.
Qed.

Lemma decoded3 s0 b1 b2 :
  Z.lor (Z.lor (Z.shiftl (Z.land s0 utf8.mask3) 12)
               (Z.shiftl (Z.land b1 utf8.maskx) 6))
        (Z.land b2 utf8.maskx)
  = s0 mod 16 * 4096 + b1 mod 64 * 64 + b2 mod 64.
Proof.
  rewrite land_mask3, !land_maskx, !Z.shiftl_mul_pow2 by lia.
  rewrite (lor_add (s0 mod 16 * 2 ^ 12) _ 12) by (pow2; lia).
  apply (lor_add _ _ 6); pow2; lia.
Qed.

Lemma decoded4 s0 b1 b2 b3 :
  Z.lor (Z.lor (Z.lor (Z.shiftl (Z.land s0 utf8.mask4) 18)
                      (Z.shiftl (Z.land b1 utf8.maskx) 12))
               (Z.shiftl (Z.land b2 utf8.maskx) 6))
        (Z.land b3 utf8.maskx)
  = s0 mod 8 * 262144 + b1 mod 64 * 4096 + b2 mod 64 * 64 + b3 mod 64.
Proof.
  rewrite land_mask4, !land_maskx, !Z.shiftl_mul_pow2 by lia.
  rewrite (lor_add (s0 mod 8 * 2 ^ 18) _ 18) by (pow2; lia).
  rewrite (lor_add (s0 mod 8 * 2 ^ 18 + b1 mod 64 * 2 ^ 12) _ 12)
    by (pow2; lia).
  apply (lor_add _ _ 6); pow2; lia.
Qed.

(** ** Encoding and decoding a rune *)

Ltac split_cmp :=
  repeat match goal with
  | |- context [Z.ltb ?a ?b] =>
      destruct (Z.ltb_spec a b); try (exfalso; lia)
  | |- context [Z.leb ?a ?b] =>
      destruct (Z.leb_spec a b); try (exfalso; lia)
  | |- context [Z.eqb ?a ?b] =>
      destruct (Z.eqb_spec a b); try (exfalso; lia)
  end.

(** The encoding of a scalar value, byte by byte. *)
Lemma EncodeRune_scalar r :
  scalar r ->
  (0 <= r <= 0x7F
   /\ utf8.EncodeRune r = String (utf8.to_byte r) EmptyString)
  \/ (0x80 <= r <= 0x7FF
      /\ utf8.EncodeRune r
         = String (utf8.to_byte (192 + r / 64))
             (String (utf8.to_byte (128 + r mod 64)) EmptyString))
  \/ (0x800 <= r <= 0xFFFF
      /\ utf8.EncodeRune r
         = String (utf8.to_byte (224 + r / 4096))
             (String (utf8.to_byte (128 + (r / 64) mod 64))
                (String (utf8.to_byte (128 + r mod 64)) EmptyString)))
  \/ (0x10000 <= r <= 0x10FFFF
      /\ utf8.EncodeRune r
         = String (utf8.to_byte (240 + r / 262144))
             (String (utf8.to_byte (128 + (r / 4096) mod 64))
                (String (utf8.to_byte (128 + (r / 64) mod 64))
                   (String (utf8.to_byte (128 + r mod 64)) EmptyString)))).
Proof.
  intros [Hr Hs]. unfold utf8.MaxRune, utf8.surrogateMin, utf8.surrogateMax in *.
  unfold utf8.EncodeRune, utf8.encode3, utf8.rune1Max, utf8.rune2Max,
    utf8.rune3Max, utf8.MaxRune, utf8.surrogateMin, utf8.surrogateMax.
  destruct (Z_le_gt_dec r 0x7F) as [H1|H1].
  { left. split; [lia|]. split_cmp; reflexivity. }
  right. destruct (Z_le_gt_dec r 0x7FF) as [H2|H2].
  { left. split; [lia|]. split_cmp; cbn [andb orb].
    all: rewrite continuation, lead2 by lia; reflexivity. }
  right. destruct (Z_le_gt_dec r 0xFFFF) as [H3|H3].
  { left. split; [lia|]. split_cmp; cbn [andb orb].
    all: rewrite !continuation, lead3 by lia.
    all: rewrite !Z.shiftr_div_pow2 by lia; pow2; reflexivity. }
  right. split; [lia|]. split_cmp; cbn [andb orb].
  all: rewrite !continuation, lead4 by lia.
  all: rewrite !Z.shiftr_div_pow2 by lia; pow2; reflexivity.
Qed.

Lemma DecodeRuneInString_EncodeRune r rest :
  scalar r ->
  utf8.DecodeRuneInString (utf8.EncodeRune r ++ rest)
  = (r, String.length (utf8.EncodeRune r)).
Proof.
  intros Hs.
  destruct (EncodeRune_scalar r Hs)
    as [[Hr ->]|[[Hr ->]|[[Hr ->]|[Hr ->]]]];
    destruct Hs as [_ Hsur];
    unfold utf8.surrogateMin, utf8.surrogateMax in Hsur;
    cbn [String.append String.length];
    unfold utf8.DecodeRuneInString;
    rewrite !byte_val_to_byte.
  - rewrite Z.mod_small by lia. unfold utf8.first. split_cmp. reflexivity.
  - rewrite !Z.mod_small by lia. unfold utf8.first, utf8.locb, utf8.hicb.
    split_cmp; cbn [String.length Nat.ltb Nat.leb orb];
      split_cmp; rewrite decoded2; f_equal; lia.
  - rewrite !Z.mod_small by lia. unfold utf8.first, utf8.locb, utf8.hicb.
    split_cmp; cbn [String.length Nat.ltb Nat.leb orb];
      split_cmp; rewrite decoded3; f_equal; lia.
  - rewrite !Z.mod_small by lia. unfold utf8.first, utf8.locb, utf8.hicb.
    split_cmp; cbn [String.length Nat.ltb Nat.leb orb];
      split_cmp; rewrite decoded4; f_equal; lia.
Qed.

(** ** The runes of a string *)

Lemma EncodeRune_nonempty r : exists c e, utf8.EncodeRune r = String c e.
Proof.
  unfold utf8.EncodeRune, utf8.encode3.
  repeat match goal with
         | |- context [if ?b then _ else _] => destruct b
         end; eauto.
Qed.

Lemma skip_app a b : utf8.skip (String.length a) (a ++ b) = b.
Proof. induction a as [|c a IH]; simpl; [destruct b|]; auto. Qed.

Lemma runes_EncodeRune r rest :
  scalar r -> utf8.runes (utf8.EncodeRune r ++ rest) = r :: utf8.runes rest.
Proof.
  intros Hs. pose proof (DecodeRuneInString_EncodeRune r rest Hs) as Hd.
  pose proof (skip_app (utf8.EncodeRune r) rest) as Hskip.
  destruct (EncodeRune_nonempty r) as (c & e & He). rewrite He in *.
  cbn [String.append] in *.
  rewrite utf8.runes_equation_2, Hd. cbn [fst snd]. rewrite Hskip.
  reflexivity.
Qed.

Lemma EncodeRunes_app rs1 rs2 :
  utf8.EncodeRunes (rs1 ++ rs2) = utf8.EncodeRunes rs1 ++ utf8.EncodeRunes rs2.
Proof. unfold utf8.EncodeRunes. rewrite fmap_app. apply join_app. Qed.

Lemma EncodeRunes_cons r rs :
  utf8.EncodeRunes (r :: rs) = utf8.EncodeRune r ++ utf8.EncodeRunes rs.
Proof. reflexivity. Qed.

(** Decoding undoes encoding on scalar values. *)
Lemma runes_EncodeRunes rs :
  Forall scalar rs -> utf8.runes (utf8.EncodeRunes rs) = rs.
Proof.
  induction 1 as [|r rs Hr _ IH]; [reflexivity|].
  rewrite EncodeRunes_cons, (runes_EncodeRune _ _ Hr), IH. reflexivity.
Qed.

Lemma DecodeRuneInString_nonneg s : 0 <= (utf8.DecodeRuneInString s).1.
Proof.
  unfold utf8.DecodeRuneInString, utf8.RuneError.
  repeat match goal with
         | |- context [match ?x with _ => _ end] => destruct x
         end; cbn [fst]; try lia.
  - apply byte_val_range.
  - rewrite decoded2. lia.
  - rewrite decoded3. lia.
  - rewrite decoded4. lia.
Qed.

Lemma runes_nonneg s : Forall (fun r => 0 <= r) (utf8.runes s).
Proof.
  remember (String.length s) as n eqn:Hn.
  revert s Hn. induction n as [n IH] using lt_wf_ind. intros s ->.
  destruct s as [|c s]; [constructor|].
  rewrite utf8.runes_equation_2. constructor.
  - apply DecodeRuneInString_nonneg.
  - eapply IH; [|reflexivity].
    destruct (utf8.DecodeRuneInString_width c s) as [k ->].
    cbn [utf8.skip String.length]. pose proof (utf8.skip_length k s). lia.
Qed.

(** ** [strings.Map] and [strings.ReplaceAll] on runes *)

Lemma sanitize_rune_outside_plane r :
  0 <= r -> sanitize_rune r = outside_plane r.
Proof.
  intros Hr. unfold sanitize_rune, outside_plane. split_cmp; reflexivity.
Qed.

Lemma sanitize_rune_nonneg r : 0 <= sanitize_rune r.
Proof. unfold sanitize_rune, underscore. split_cmp; cbn [andb]; lia. Qed.

Lemma sanitizeQuoted_runes s :
  sanitizeQuoted s = utf8.EncodeRunes (outside_plane <$> utf8.runes s).
Proof.
  unfold sanitizeQuoted, strings.Map, utf8.EncodeRunes. f_equal.
  rewrite <- list_fmap_compose.
  apply Forall_fmap_ext_1. eapply Forall_impl; [apply runes_nonneg|].
  intros r Hr. cbn beta zeta.
  rewrite (proj2 (Z.leb_le 0 (sanitize_rune r)) (sanitize_rune_nonneg r)).
  simpl. rewrite (sanitize_rune_outside_plane r Hr). reflexivity.
Qed.

Lemma ReplaceAll_unfold c s old new :
  strings.ReplaceAll (String c s) old new
  = match strings.cut_prefix old (String c s) with
    | Some rest => new ++ strings.ReplaceAll rest old new
    | None => String c (strings.ReplaceAll s old new)
    end.
Proof.
  rewrite strings.ReplaceAll_equation_2.
  destruct (regexp.inspect (strings.cut_prefix old (String c s))) as [o e].
  transitivity (match o with
                | Some rest => new ++ strings.ReplaceAll rest old new
                | None => String c (strings.ReplaceAll s old new)
                end); [|rewrite e; reflexivity].
  destruct o; reflexivity.
Qed.

Lemma ReplaceAll_char c s new :
  strings.ReplaceAll (String c s) double_quote new
  = (if Ascii.eqb "034" c then new else String c EmptyString)
    ++ strings.ReplaceAll s double_quote new.
Proof.
  rewrite ReplaceAll_unfold. unfold double_quote. cbn [strings.cut_prefix].
  destruct (Ascii.eqb "034" c); reflexivity.
Qed.

Lemma ReplaceAll_app a b new :
  strings.ReplaceAll (a ++ b) double_quote new
  = strings.ReplaceAll a double_quote new
    ++ strings.ReplaceAll b double_quote new.
Proof.
  induction a as [|c a IH]; [reflexivity|].
  cbn [String.append]. rewrite !ReplaceAll_char, IH, append_assoc.
  reflexivity.
Qed.

Lemma ReplaceAll_quote_free s new :
  quote_free s -> strings.ReplaceAll s double_quote new = s.
Proof.
  induction s as [|c s IH]; [reflexivity|]. intros [Hc Hs].
  rewrite ReplaceAll_char, (IH Hs).
  destruct (Ascii.eqb_spec "034" c) as [<-|_]; [contradiction|reflexivity].
Qed.

Lemma to_byte_not_quote z : z mod 256 <> 34 -> utf8.to_byte z <> "034"%char.
Proof.
  intros Hz Heq. apply Hz. rewrite <- byte_val_to_byte, Heq. reflexivity.
Qed.

Lemma EncodeRune_quote_free r : r <> quote_rune -> quote_free (utf8.EncodeRune r).
Proof.
  unfold quote_rune. intros Hr.
  unfold utf8.EncodeRune, utf8.encode3, utf8.rune1Max, utf8.rune2Max,
    utf8.rune3Max, utf8.MaxRune, utf8.surrogateMin, utf8.surrogateMax.
  split_cmp; cbn [andb orb quote_free];
    try (unfold utf8.RuneError; vm_compute; intuition discriminate);
    repeat split; apply to_byte_not_quote;
    rewrite ?continuation, ?lead2, ?lead3, ?lead4 by lia; lia.
Qed.

Lemma EncodeRune_quote : utf8.EncodeRune quote_rune = double_quote.
Proof. reflexivity. Qed.

Lemma ReplaceAll_EncodeRunes rs :
  strings.ReplaceAll (utf8.EncodeRunes rs) double_quote
    (double_quote ++ double_quote)
  = utf8.EncodeRunes (rs ≫= double_rune).
Proof.
  induction rs as [|r rs IH]; [reflexivity|].
  rewrite EncodeRunes_cons, ReplaceAll_app, IH.
  change ((r :: rs) ≫= double_rune)
    with (double_rune r ++ (rs ≫= double_rune))%list.
  rewrite EncodeRunes_app. f_equal.
  unfold double_rune. destruct (Z.eqb_spec r quote_rune) as [->|Hne].
  - reflexivity.
  - rewrite (ReplaceAll_quote_free _ _ (EncodeRune_quote_free _ Hne)).
    unfold utf8.EncodeRunes. simpl. rewrite append_nil_r. reflexivity.
Qed.

(** ** Quoting identifiers *)

Lemma bind_fmap_runes (f : Z -> Z) rs :
  (f <$> rs) ≫= double_rune = rs ≫= (fun r => double_rune (f r)).
Proof.
  induction rs as [|r rs IH]; [reflexivity|].
  change ((double_rune (f r) ++ ((f <$> rs) ≫= double_rune))%list
          = (double_rune (f r)
             ++ (rs ≫= (fun r => double_rune (f r))))%list).
  rewrite IH. reflexivity.
Qed.

(** C5, as the specification words it, does not hold: the character U+1F600
    is not below U+0001, yet [quoteIdent] turns it into an underscore. *)
Lemma quoteIdent_replaces_above_plane :
  utf8.runes grinning_face_utf8 = [grinning_face]
  /\ quoteIdent grinning_face_utf8 = double_quote ++ "_" ++ double_quote
  /\ utf8.EncodeRunes (quoted_with below_one_only [grinning_face])
     = double_quote ++ grinning_face_utf8 ++ double_quote
  /\ ~ (forall s,
          quoteIdent s
          = utf8.EncodeRunes (quoted_with below_one_only (utf8.runes s))).
Proof.
  assert (Hr : utf8.runes grinning_face_utf8 = [grinning_face])
    by reflexivity.
  assert (Hq : quoteIdent grinning_face_utf8
               = double_quote ++ "_" ++ double_quote) by reflexivity.
  split; [exact Hr|]. split; [exact Hq|]. split; [reflexivity|].
  intros Hclaim. specialize (Hclaim grinning_face_utf8).
  rewrite Hq, Hr in Hclaim. vm_compute in Hclaim. discriminate Hclaim.
Qed.

(** C5 (amended). For every string, [quoteIdent] returns the characters of
    the string with U+0000 and every character above U+FFFF replaced by an
    underscore and all other characters kept, then every double quote
    doubled, the whole between two double quotes.  The characters of a
    string are the runes Go reads from it (U+FFFD for a byte that is not
    part of a well-formed encoding). *)
Theorem quoteIdent_characters (s : string) :
  quoteIdent s
  = utf8.EncodeRunes (quoted_with outside_plane (utf8.runes s)).
Proof.
  unfold quoteIdent, quoted_with.
  rewrite sanitizeQuoted_runes, ReplaceAll_EncodeRunes, bind_fmap_runes.
  rewrite !EncodeRunes_app.
  change (utf8.EncodeRunes [quote_rune]) with double_quote.
  reflexivity.
Qed.

(** ** Removing the quotes again *)

Lemma without_last_app s c :
  without_last (s ++ String c EmptyString) = s.
Proof.
  induction s as [|a s IH]; [reflexivity|].
  cbn [String.append without_last]. rewrite IH.
  destruct s; reflexivity.
Qed.

Lemma collapse_other c t :
  Ascii.eqb c "034" = false -> collapse (String c t) = String c (collapse t).
Proof.
  intros Hc. destruct t as [|b t]; [reflexivity|].
  cbn [collapse]. rewrite Hc. reflexivity.
Qed.

Lemma collapse_pair t :
  collapse (String "034" (String "034" t)) = String "034" (collapse t).
Proof. reflexivity. Qed.

Lemma collapse_doubled s :
  collapse (strings.ReplaceAll s double_quote (double_quote ++ double_quote))
  = s.
Proof.
  induction s as [|c s IH]; [reflexivity|].
  rewrite ReplaceAll_char.
  destruct (Ascii.eqb_spec "034" c) as [<-|Hc].
  - change ((double_quote ++ double_quote) ++ ?x)
      with (String "034" (String "034" x)).
    rewrite collapse_pair, IH. reflexivity.
  - cbn [String.append]. rewrite collapse_other, IH; [reflexivity|].
    apply Ascii.eqb_neq. congruence.
Qed.

(** Unquoting a quoted identifier gives the sanitized name. *)
Lemma unquote_quoteIdent s : unquote (quoteIdent s) = sanitizeQuoted s.
Proof.
  unfold unquote, quoteIdent.
  change (double_quote ++ ?x) with (String "034" x) at 1.
  cbn [tail_from_1].
  rewrite (without_last_app _ "034" : without_last (_ ++ double_quote) = _).
  apply collapse_doubled.
Qed.

Lemma sanitizeQuoted_plane rs :
  Forall (fun r => scalar r /\ 1 <= r <= 0xFFFF) rs ->
  sanitizeQuoted (utf8.EncodeRunes rs) = utf8.EncodeRunes rs.
Proof.
  intros Hrs. rewrite sanitizeQuoted_runes, runes_EncodeRunes.
  - f_equal. rewrite <- (list_fmap_id rs) at 2.
    apply Forall_fmap_ext_1. eapply Forall_impl; [exact Hrs|].
    intros r [_ Hr]. unfold outside_plane. split_cmp; reflexivity.
  - eapply Forall_impl; [exact Hrs|]. intros r [Hs _]. exact Hs.
Qed.

(** C7, as the specification words it, does not hold: U+1F600 is a
    printable character and no control character, but unquoting the quoted
    string gives an underscore. *)
Lemma unquote_quoteIdent_loses_above_plane :
  Forall (fun r => printable r /\ ~ control r) [grinning_face]
  /\ utf8.EncodeRunes [grinning_face] = grinning_face_utf8
  /\ unquote (quoteIdent grinning_face_utf8) = "_"
  /\ ~ (forall rs,
          Forall (fun r => printable r /\ ~ control r) rs ->
          unquote (quoteIdent (utf8.EncodeRunes rs)) = utf8.EncodeRunes rs).
Proof.
  assert (Hp : Forall (fun r => printable r /\ ~ control r) [grinning_face]).
  { constructor; [|constructor].
    unfold printable, scalar, control, grinning_face, utf8.MaxRune,
      utf8.surrogateMin, utf8.surrogateMax. lia. }
  assert (He : utf8.EncodeRunes [grinning_face] = grinning_face_utf8)
    by reflexivity.
  assert (Hu : unquote (quoteIdent grinning_face_utf8) = "_") by reflexivity.
  split; [exact Hp|]. split; [exact He|]. split; [exact Hu|].
  intros Hclaim. specialize (Hclaim [grinning_face] Hp).
  rewrite He, Hu in Hclaim. vm_compute in Hclaim. discriminate Hclaim.
Qed.

(** C7 (amended). For every string whose characters are scalar values from
    U+0001 to U+FFFF, in particular for the printable characters of the
    Basic Multilingual Plane, removing the outer quotes of [quoteIdent s]
    and collapsing each doubled double quote gives [s] back. *)
Theorem unquote_quoteIdent_plane (rs : list Z) :
  Forall (fun r => scalar r /\ 1 <= r <= 0xFFFF) rs ->
  unquote (quoteIdent (utf8.EncodeRunes rs)) = utf8.EncodeRunes rs.
Proof.
  intros Hrs. rewrite unquote_quoteIdent. apply sanitizeQuoted_plane, Hrs.
Qed.

(** An instance: [say "€"], with its two double quotes. *)
Lemma unquote_quoteIdent_plane_witness :
  Forall (fun r => scalar r /\ 1 <= r <= 0xFFFF)
    [115; 97; 121; 32; 34; 0x20AC; 34]
  /\ unquote (quoteIdent
               (utf8.EncodeRunes [115; 97; 121; 32; 34; 0x20AC; 34]))
     = utf8.EncodeRunes [115; 97; 121; 32; 34; 0x20AC; 34].
Proof.
  assert (H : Forall (fun r => scalar r /\ 1 <= r <= 0xFFFF)
                [115; 97; 121; 32; 34; 0x20AC; 34]).
  { repeat constructor;
      unfold utf8.MaxRune, utf8.surrogateMin, utf8.surrogateMax; lia. }
  split; [exact H|]. exact (unquote_quoteIdent_plane _ H).
Defined.

Example quoteIdent_doubles_quotes :
  quoteIdent ("a" ++ double_quote ++ "b")
  = double_quote ++ "a" ++ double_quote ++ double_quote ++ "b"
    ++ double_quote.
Proof. reflexivity. Qed.

Lemma DecodeRuneInString_scalar s : scalar (utf8.DecodeRuneInString s).1.
Proof.
  assert (Herr : scalar utf8.RuneError).
  { unfold scalar, utf8.RuneError, utf8.MaxRune, utf8.surrogateMin,
      utf8.surrogateMax. lia. }
  destruct s as [|c0 s1]; [exact Herr|].
  unfold utf8.DecodeRuneInString.
  pose proof (byte_val_range c0) as Hbyte0.
  set (s0 := utf8.byte_val c0) in *. clearbody s0.
  unfold utf8.first, utf8.locb, utf8.hicb.
  split_cmp; cbn [fst]; try exact Herr.
  all: try (unfold scalar, utf8.MaxRune, utf8.surrogateMin,
             utf8.surrogateMax; lia).
  all: destruct (_ <? _)%nat; [exact Herr|].
  all: destruct s1 as [|c1 s2]; [exact Herr|].
  all: pose proof (byte_val_range c1) as Hbyte1;
    set (b1 := utf8.byte_val c1) in *; clearbody b1.
  all: split_cmp; cbn [orb fst Nat.leb]; try exact Herr.
  all: try (rewrite decoded2;
            unfold scalar, utf8.MaxRune, utf8.surrogateMin,
              utf8.surrogateMax; lia).
  all: destruct s2 as [|c2 s3]; [exact Herr|].
  all: pose proof (byte_val_range c2) as Hbyte2;
    set (b2 := utf8.byte_val c2) in *; clearbody b2.
  all: split_cmp; cbn [orb fst Nat.leb]; try exact Herr.
  all: try (rewrite decoded3;
            unfold scalar, utf8.MaxRune, utf8.surrogateMin,
              utf8.surrogateMax; lia).
  all: destruct s3 as [|c3 s4]; [exact Herr|].
  all: pose proof (byte_val_range c3) as Hbyte3;
    set (b3 := utf8.byte_val c3) in *; clearbody b3.
  all: split_cmp; cbn [orb fst]; try exact Herr.
  all: rewrite decoded4;
    unfold scalar, utf8.MaxRune, utf8.surrogateMin, utf8.surrogateMax; lia.
Qed.

(** ** Quoted tokens are read back whole *)

Lemma ReplaceAll_one q c s new :
  strings.ReplaceAll (String c s) (String q EmptyString) new
  = (if Ascii.eqb q c then new else String c EmptyString)
    ++ strings.ReplaceAll s (String q EmptyString) new.
Proof.
  rewrite ReplaceAll_unfold. cbn [strings.cut_prefix].
  destruct (Ascii.eqb q c); reflexivity.
Qed.

Lemma scan_quoted_doubled q s rest :
  begins_with q rest = false ->
  scan_quoted q
    (strings.ReplaceAll s (String q EmptyString)
       (String q (String q EmptyString)) ++ String q rest)
  = Some (s, rest).
Proof.
  intros Hrest. induction s as [|c s IH].
  - rewrite strings.ReplaceAll_equation_1.
    cbn [String.append scan_quoted]. rewrite Ascii.eqb_refl.
    destruct rest as [|b rest]; [reflexivity|].
    cbn [begins_with] in Hrest. rewrite Hrest. reflexivity.
  - rewrite ReplaceAll_one. destruct (Ascii.eqb_spec q c) as [<-|Hc].
    + cbn [String.append scan_quoted]. rewrite Ascii.eqb_refl, IH.
      reflexivity.
    + cbn [String.append scan_quoted].
      assert (Hf : Ascii.eqb c q = false) by (apply Ascii.eqb_neq; congruence).
      rewrite Hf, IH. reflexivity.
Qed.

Lemma quoteStr_shape name :
  quoteStr name
  = String "'" (strings.ReplaceAll name single_quote
                  (single_quote ++ single_quote) ++ single_quote).
Proof. reflexivity. Qed.


Lemma lex_quoted_wrapped q body rest :
  begins_with q rest = false ->
  lex_quoted q
    (String q (strings.ReplaceAll body (String q EmptyString)
                 (String q (String q EmptyString)) ++ String q EmptyString)
     ++ rest)
  = Some (body, rest).
Proof.
  intros Hrest. cbn [String.append lex_quoted].
  rewrite Ascii.eqb_refl, append_assoc.
  apply (scan_quoted_doubled q body rest Hrest).
Qed.



(** X2. [quoteStr] never maps two different strings to the same literal. *)
Theorem quoteStr_injective (a b : string) : quoteStr a = quoteStr b <-> a = b.
Proof.
  split; [|intros ->; reflexivity]. intros H.
  pose proof (lex_quoted_wrapped "'" a EmptyString eq_refl) as Ha.
  pose proof (lex_quoted_wrapped "'" b EmptyString eq_refl) as Hb.
  rewrite <- quoteStr_shape in Ha, Hb. rewrite H, Hb in Ha. congruence.
Qed.



(** X4. Two names get the same quoted identifier exactly when they are the
    same after sanitizing: quoting itself loses nothing. *)
Theorem quoteIdent_equal_iff (a b : string) :
  quoteIdent a = quoteIdent b <-> sanitizeQuoted a = sanitizeQuoted b.
Proof.
  split.
  - intros H. rewrite <- (unquote_quoteIdent a), <- (unquote_quoteIdent b), H.
    reflexivity.
  - intros H. unfold quoteIdent. rewrite H. reflexivity.
Qed.

(** ** What [sanitizeQuoted] returns *)

Lemma runes_scalar s : Forall scalar (utf8.runes s).
Proof.
  remember (String.length s) as n eqn:Hn.
  revert s Hn. induction n as [n IH] using lt_wf_ind. intros s ->.
  destruct s as [|c s]; [constructor|].
  rewrite utf8.runes_equation_2. constructor.
  - apply DecodeRuneInString_scalar.
  - eapply IH; [|reflexivity].
    destruct (utf8.DecodeRuneInString_width c s) as [k ->].
    cbn [utf8.skip String.length]. pose proof (utf8.skip_length k s). lia.
Qed.

Lemma outside_plane_range r :
  scalar r -> scalar (outside_plane r) /\ 1 <= outside_plane r <= 0xFFFF.
Proof.
  unfold scalar, outside_plane, underscore, utf8.MaxRune, utf8.surrogateMin,
    utf8.surrogateMax.
  intros [Hr Hs]. split_cmp; cbn [orb]; lia.
Qed.

Lemma outside_plane_fixed r : 1 <= r <= 0xFFFF -> outside_plane r = r.
Proof. intros Hr. unfold outside_plane. split_cmp; reflexivity. Qed.

Lemma sanitized_runes s :
  Forall (fun r => scalar r /\ 1 <= r <= 0xFFFF)
    (outside_plane <$> utf8.runes s).
Proof.
  apply Forall_fmap. eapply Forall_impl; [apply runes_scalar|].
  intros r Hr. apply (outside_plane_range r Hr).
Qed.

(** X5. Sanitizing twice is sanitizing once. *)
Theorem sanitizeQuoted_idempotent (s : string) :
  sanitizeQuoted (sanitizeQuoted s) = sanitizeQuoted s.
Proof.
  rewrite (sanitizeQuoted_runes s).
  apply sanitizeQuoted_plane, sanitized_runes.
Qed.

Lemma EncodeRune_no_nul r :
  1 <= r <= 0xFFFF -> count_char zero (utf8.EncodeRune r) = 0%nat.
Proof.
  intros Hr.
  assert (Hb : forall z, z mod 256 <> 0 ->
                 Ascii.eqb (utf8.to_byte z) zero = false).
  { intros z Hz. apply Ascii.eqb_neq. intros Heq. apply Hz.
    rewrite <- byte_val_to_byte, Heq. reflexivity. }
  unfold utf8.EncodeRune, utf8.encode3, utf8.rune1Max, utf8.rune2Max,
    utf8.rune3Max, utf8.MaxRune, utf8.surrogateMin, utf8.surrogateMax.
  split_cmp; cbn [andb orb count_char];
    try (unfold utf8.RuneError; vm_compute; reflexivity);
    rewrite ?Hb; try reflexivity;
    rewrite ?continuation, ?lead2, ?lead3 by lia; lia.
Qed.

Lemma count_char_app q a b :
  count_char q (a ++ b) = (count_char q a + count_char q b)%nat.
Proof. induction a as [|c a IH]; simpl; [reflexivity|]. rewrite IH. lia. Qed.

(** X6. Whatever bytes the name holds, the sanitized name is well-formed
    UTF-8 (decoding and encoding it again gives the same bytes) whose
    characters are scalar values from U+0001 to U+FFFF, and it holds no NUL
    byte. *)
Theorem sanitizeQuoted_well_formed (s : string) :
  Forall (fun r => scalar r /\ 1 <= r <= 0xFFFF)
    (utf8.runes (sanitizeQuoted s))
  /\ utf8.EncodeRunes (utf8.runes (sanitizeQuoted s)) = sanitizeQuoted s
  /\ count_char zero (sanitizeQuoted s) = 0%nat.
Proof.
  pose proof (sanitized_runes s) as Hrs.
  assert (Hsc : Forall scalar (outside_plane <$> utf8.runes s)).
  { eapply Forall_impl; [exact Hrs|]. intros r [H _]. exact H. }
  rewrite sanitizeQuoted_runes, (runes_EncodeRunes _ Hsc).
  split; [exact Hrs|]. split; [reflexivity|].
  induction Hrs as [|r rs [_ Hr] _ IH]; [reflexivity|].
  rewrite EncodeRunes_cons, count_char_app, (EncodeRune_no_nul r Hr).
  apply IH. apply Forall_inv_tail in Hsc. exact Hsc.
Qed.

(** ** Colons and placeholders *)

Lemma keys_leading_word ts : keys (leading_word ts).2 = keys ts.
Proof.
  induction ts as [|[c|k] ts IH]; simpl; try reflexivity.
  destruct (regexp.word c); [|reflexivity].
  destruct (leading_word ts); exact IH.
Qed.

Lemma keys_count_colons sql :
  length (keys (tokens sql)) = count_char regexp.colon sql.
Proof.
  induction sql as [|c sql IH]; [reflexivity|].
  cbn [tokens count_char]. destruct (Ascii.eqb c regexp.colon).
  - pose proof (keys_leading_word (tokens sql)) as Hk.
    destruct (leading_word (tokens sql)) as [k rest]. simpl in *.
    rewrite Hk, IH. reflexivity.
  - simpl. exact IH.
Qed.

Lemma values_of_length m ks :
  first_missing m ks = None -> length (values_of m ks) = length ks.
Proof.
  intros H. rewrite <- (length_fmap Some), values_of_present, length_fmap;
    [reflexivity|].
  apply first_missing_none, H.
Qed.

(** X7. Every colon of the template is a placeholder of its own: when
    [generateQuery] succeeds, it returns as many arguments as the template
    has colon characters (so [::] or a colon inside a quoted SQL text asks
    for a value too). *)
Theorem generateQuery_one_argument_per_colon (sql sql' : string)
    (args : list value) (st st' : Store) :
  generateQuery sql st = ((sql', args, None), st') ->
  length args = count_char ":" sql.
Proof.
  rewrite generateQuery_run.
  destruct (first_missing _ _) eqn:Hfm; [discriminate|].
  intros [= _ <- _]. rewrite (values_of_length _ _ Hfm).
  apply keys_count_colons.
Qed.

Lemma generateQuery_one_argument_per_colon_witness :
  generateQuery test_query test_store
  = (("UPDATE $1 SET name=$2", [VString "users"; VString "telegraf"], None),
     test_store)
  /\ length [VString "users"; VString "telegraf"]
     = count_char ":" test_query.
Proof.
  assert (H : generateQuery test_query test_store
              = (("UPDATE $1 SET name=$2",
                  [VString "users"; VString "telegraf"], None), test_store))
    by reflexivity.
  split; [exact H|].
  exact (generateQuery_one_argument_per_colon _ _ _ _ _ H).
Defined.

Lemma leftmost_no_colon s :
  count_char regexp.colon s = 0%nat -> regexp.leftmost s = None.
Proof.
  induction s as [|c s IH]; [reflexivity|].
  cbn [count_char regexp.leftmost].
  destruct (Ascii.eqb c regexp.colon); [discriminate|].
  intros H. rewrite (IH H). reflexivity.
Qed.

Lemma tokens_no_colon s :
  count_char regexp.colon s = 0%nat -> keys (tokens s) = [].
Proof.
  intros H. apply length_zero_iff_nil. rewrite keys_count_colons. exact H.
Qed.

Lemma compiled_no_colon driver s :
  count_char regexp.colon s = 0%nat -> compiled driver s = s.
Proof.
  intros H. unfold compiled, regexp.ReplaceAllString.
  rewrite !ReplaceAllStringFunc_unfold, (leftmost_no_colon s H).
  destruct (String.eqb driver "pgx"); reflexivity.
Qed.

(** X8. A template without a colon is returned as it is, with no arguments
    and no error, whatever the driver and the value map. *)
Theorem generateQuery_without_colon (sql : string) (st : Store) :
  count_char ":" sql = 0%nat ->
  generateQuery sql st = ((sql, [], None), st).
Proof.
  intros H. rewrite generateQuery_run, (tokens_no_colon sql H).
  cbn [first_missing find values_of omap list_omap].
  rewrite (compiled_no_colon _ sql H). reflexivity.
Qed.

Lemma generateQuery_without_colon_witness :
  count_char ":" "DELETE FROM t" = 0%nat
  /\ generateQuery "DELETE FROM t" (store_of newSQL ∅)
     = (("DELETE FROM t", [], None), store_of newSQL ∅).
Proof.
  split; [reflexivity|].
  exact (generateQuery_without_colon "DELETE FROM t" (store_of newSQL ∅)
           eq_refl).
Defined.

Lemma string_of_uint_no_colon d :
  count_char regexp.colon (NilEmpty.string_of_uint d) = 0%nat.
Proof. induction d; simpl; auto. Qed.

Lemma Itoa_no_colon i : count_char regexp.colon (Itoa i) = 0%nat.
Proof.
  assert (Hu : forall d,
             count_char regexp.colon (NilZero.string_of_uint d) = 0%nat).
  { intros d. destruct d; [reflexivity|..];
      exact (string_of_uint_no_colon _). }
  unfold Itoa, NilZero.string_of_int.
  destruct (Z.to_int i) as [d|d]; [apply Hu|].
  change (count_char regexp.colon (NilZero.string_of_uint d) = 0%nat).
  apply Hu.
Qed.

Lemma replace_tokens_no_colon {St} ts (repl : string -> St -> string * St) st :
  well_formed ts = true ->
  (forall m s, count_char regexp.colon (repl m s).1 = 0%nat) ->
  count_char regexp.colon (replace_tokens repl st ts).1 = 0%nat.
Proof.
  intros Hwf Hrepl. revert st Hwf.
  induction ts as [|[c|k] ts IH]; intros st Hwf; cbn [replace_tokens].
  - reflexivity.
  - cbn [well_formed] in Hwf. apply andb_prop in Hwf as [Hc Hwf].
    apply negb_true_iff in Hc. specialize (IH st Hwf).
    destruct (replace_tokens repl st ts) as [out st1].
    cbn [fst count_char] in *. rewrite Hc, IH. reflexivity.
  - cbn [well_formed] in Hwf. apply andb_prop in Hwf as [_ Hwf].
    pose proof (Hrepl (String regexp.colon k) st) as Hnew.
    destruct (repl (String regexp.colon k) st) as [new st1].
    specialize (IH st1 Hwf).
    destruct (replace_tokens repl st1 ts) as [out st2].
    cbn [fst] in *. rewrite count_char_app, Hnew, IH. reflexivity.
Qed.

Lemma compiled_has_no_colon driver sql :
  count_char regexp.colon (compiled driver sql) = 0%nat.
Proof.
  unfold compiled, regexp.ReplaceAllString.
  rewrite !ReplaceAllStringFunc_tokens.
  destruct (String.eqb driver "pgx");
    apply replace_tokens_no_colon; try apply tokens_well_formed.
  - intros m i. unfold pgx_placeholder. cbn [fst].
    change (count_char regexp.colon (Itoa (wrap_int (i + 1))) = 0%nat).
    apply Itoa_no_colon.
  - reflexivity.
Qed.

(** X9. A successful [generateQuery] leaves no colon in the statement: every
    colon of the template has become a marker.  Compiling the returned
    statement once more changes nothing and asks for no value. *)
Theorem generateQuery_output_is_fixed (sql sql' : string)
    (args : list value) (st st' : Store) :
  generateQuery sql st = ((sql', args, None), st') ->
  count_char ":" sql' = 0%nat
  /\ forall st2, generateQuery sql' st2 = ((sql', [], None), st2).
Proof.
  rewrite generateQuery_run.
  destruct (first_missing _ _) eqn:Hfm; [discriminate|].
  intros [= <- _ _].
  pose proof (compiled_has_no_colon (Driver (receiver st)) sql) as Hno.
  split; [exact Hno|]. intros st2.
  rewrite generateQuery_run, (tokens_no_colon _ Hno).
  cbn [first_missing find values_of omap list_omap].
  rewrite (compiled_no_colon _ _ Hno). reflexivity.
Qed.

Lemma generateQuery_output_is_fixed_witness :
  generateQuery test_query test_store
  = (("UPDATE $1 SET name=$2", [VString "users"; VString "telegraf"], None),
     test_store)
  /\ count_char ":" "UPDATE $1 SET name=$2" = 0%nat
  /\ forall st2,
       generateQuery "UPDATE $1 SET name=$2" st2
       = (("UPDATE $1 SET name=$2", [], None), st2).
Proof.
  assert (H : generateQuery test_query test_store
              = (("UPDATE $1 SET name=$2",
                  [VString "users"; VString "telegraf"], None), test_store))
    by reflexivity.
  split; [exact H|].
  exact (generateQuery_output_is_fixed _ _ _ _ _ H).
Defined.

Lemma leading_word_all_word ts :
  all_word (leading_word ts).1 = true.
Proof.
  induction ts as [|[c|k] ts IH]; simpl; try reflexivity.
  destruct (regexp.word c) eqn:Hc; [|reflexivity].
  destruct (leading_word ts) as [k rest]. simpl in *. rewrite Hc, IH.
  reflexivity.
Qed.

Lemma keys_all_word sql key :
  key ∈ keys (tokens sql) -> all_word key = true.
Proof.
  induction sql as [|c sql IH]; cbn [tokens]; [intros H; inversion H|].
  destruct (Ascii.eqb c regexp.colon); [|exact IH].
  pose proof (leading_word_all_word (tokens sql)) as Hk.
  pose proof (keys_leading_word (tokens sql)) as Hrest.
  destruct (leading_word (tokens sql)) as [k rest]. simpl in *.
  intros Hin. apply elem_of_cons in Hin as [->|Hin]; [exact Hk|].
  apply IH. rewrite <- Hrest. exact Hin.
Qed.

(** X10. Only keys made of the characters [a-z], [A-Z], [0-9] and [_] can be
    referred to by a template: an entry of the value map whose key holds
    any other character (a tag named [host-name], a field named [cpu.idle])
    has no influence on the result, whether it is set or removed. *)
Theorem generateQuery_ignores_other_keys (sql key : string) (v : value)
    (st : Store) :
  all_word key = false ->
  (generateQuery sql (with_valuesMap (<[key := v]> (valuesMap st)) st)).1
  = (generateQuery sql st).1
  /\ (generateQuery sql (with_valuesMap (delete key (valuesMap st)) st)).1
     = (generateQuery sql st).1.
Proof.
  intros Hkey.
  assert (Hne : forall k, k ∈ keys (tokens sql) -> key <> k).
  { intros k Hin ->. apply keys_all_word in Hin. congruence. }
  rewrite !generateQuery_run. cbn [fst with_valuesMap valuesMap receiver].
  split.
  - rewrite (first_missing_agree (valuesMap st) (<[key := v]> (valuesMap st))),
      (values_of_agree (valuesMap st) (<[key := v]> (valuesMap st)));
      [reflexivity| |];
      intros k Hin; apply lookup_insert_ne, Hne, Hin.
  - rewrite (first_missing_agree (valuesMap st) (delete key (valuesMap st))),
      (values_of_agree (valuesMap st) (delete key (valuesMap st)));
      [reflexivity| |];
      intros k Hin; apply lookup_delete_ne, Hne, Hin.
Qed.

Lemma generateQuery_ignores_other_keys_witness :
  all_word "host-name" = false
  /\ (generateQuery test_query
        (with_valuesMap (<["host-name" := VString "a"]> (valuesMap test_store))
           test_store)).1
     = (generateQuery test_query test_store).1
  /\ (generateQuery test_query
        (with_valuesMap (delete "host-name" (valuesMap test_store))
           test_store)).1
     = (generateQuery test_query test_store).1.
Proof.
  split; [reflexivity|].
  exact (generateQuery_ignores_other_keys test_query "host-name" (VString "a")
           test_store eq_refl).
Defined.

(** ** Type names *)

(** X11. With a conversion table that has no empty entry and a known
    conversion style, [deriveDatatype] never returns an empty type name; for
    the five kinds of field values it logs nothing and leaves the store as
    it was. *)
Theorem deriveDatatype_complete_table (v : value) (st : Store) :
  table_complete (Convert (receiver st)) ->
  (deriveDatatype v st).1 <> EmptyString
  /\ (known_kind v = true -> (deriveDatatype v st).2 = st).
Proof.
  intros (Hi & Hr & Ht & Hd & Hu & Hb & Hstyle).
  unfold deriveDatatype, bind, this.
  destruct v; cbn [known_kind fst snd ret]; try (split; [assumption|reflexivity]).
  - destruct Hstyle as [Hs|Hs]; rewrite Hs; simpl.
    + split; [|reflexivity].
      destruct (Integer (Convert (receiver st))); discriminate.
    + split; [assumption|reflexivity].
  - split; [exact Hd|discriminate].
  - split; [exact Hd|discriminate].
Qed.

Lemma deriveDatatype_complete_table_witness :
  table_complete (Convert (receiver (store_of newSQL ∅)))
  /\ (deriveDatatype (VUint64 7) (store_of newSQL ∅)).1 <> EmptyString
  /\ (known_kind (VUint64 7) = true ->
      (deriveDatatype (VUint64 7) (store_of newSQL ∅)).2 = store_of newSQL ∅).
Proof.
  assert (H : table_complete (Convert (receiver (store_of newSQL ∅)))).
  { unfold table_complete. simpl. repeat split; try discriminate.
    left. reflexivity. }
  split; [exact H|].
  exact (deriveDatatype_complete_table (VUint64 7) (store_of newSQL ∅) H).
Defined.

(** ** One iteration of [WriteMetric] *)

Lemma resolved_map_lookup p metric key :
  resolved_map p metric !! key = resolved p metric key.
Proof.
  unfold resolved_map, resolved, builtin.
  destruct (Fields metric !! key) as [f|] eqn:Hf.
  { apply lookup_union_Some_l, Hf. }
  rewrite (lookup_union_r _ _ _ Hf).
  assert (Htag : (VString <$> Tags metric) !! key
                 = VString <$> Tags metric !! key) by apply lookup_fmap.
  destruct (Tags metric !! key) as [t|] eqn:Ht.
  { apply lookup_union_Some_l, Htag. }
  rewrite (lookup_union_r _ _ _ Htag).
  destruct (DefaultValues p !! key) as [d|] eqn:Hd.
  { apply lookup_union_Some_l, Hd. }
  rewrite (lookup_union_r _ _ _ Hd).
  destruct (String.eqb_spec key "timestamp") as [->|Hts].
  - apply lookup_insert_eq.
  - rewrite lookup_insert_ne by congruence.
    destruct (String.eqb_spec key "metric") as [->|Hm].
    + apply lookup_insert_eq.
    + rewrite lookup_insert_ne by congruence. apply lookup_empty.
Qed.

Lemma WriteMetric_valuesMap_run metric it st :
  valid_iteration (receiver st) metric it ->
  WriteMetric_valuesMap metric (of_defaults it) (of_tags it) (of_fields it) st
  = (tt, with_valuesMap (resolved_map (receiver st) metric) st).
Proof.
  intros (Hd & Ht & Hf).
  set (st0 := {| receiver := receiver st;
                 valuesMap := <["timestamp" := VTime (Time metric)]>
                                (<["metric" := VString (Name metric)]> ∅);
                 logged := logged st |}).
  set (st1 := (range_assign (of_defaults it) st0).2).
  set (st2 := (range_assign (tag_entry <$> of_tags it) st1).2).
  assert (Hrun : WriteMetric_valuesMap metric (of_defaults it) (of_tags it)
                   (of_fields it) st
                 = (tt, (range_assign (of_fields it) st2).2)).
  { subst st2 st1 st0.
    unfold WriteMetric_valuesMap, bind, map_make, map_assign. simpl.
    destruct (range_assign (of_defaults it) _) as [[] s1]. simpl.
    destruct (range_assign (tag_entry <$> of_tags it) s1) as [[] s2]. simpl.
    destruct (range_assign (of_fields it) s2) as [[] s3]. reflexivity. }
  rewrite Hrun. f_equal.
  assert (Hrec : receiver (range_assign (of_fields it) st2).2 = receiver st).
  { unfold st2, st1.
    rewrite !(proj1 (range_assign_receiver _ _)). reflexivity. }
  assert (Hlog : logged (range_assign (of_fields it) st2).2 = logged st).
  { unfold st2, st1.
    rewrite !(proj2 (range_assign_receiver _ _)). reflexivity. }
  assert (Hm : valuesMap (range_assign (of_fields it) st2).2
               = resolved_map (receiver st) metric).
  { apply map_eq. intros key. rewrite resolved_map_lookup. unfold resolved.
    rewrite (iteration_lookup _ _ _ _ Hf).
    destruct (Fields metric !! key); [reflexivity|].
    unfold st2. rewrite (iteration_lookup_tags _ _ _ _ Ht).
    destruct (Tags metric !! key); [reflexivity|].
    unfold st1. rewrite (iteration_lookup _ _ _ _ Hd).
    destruct (DefaultValues (receiver st) !! key); [reflexivity|].
    unfold builtin, st0. simpl.
    destruct (String.eqb_spec key "timestamp") as [->|Hts].
    - rewrite lookup_insert_eq. reflexivity.
    - rewrite lookup_insert_ne by congruence.
      destruct (String.eqb_spec key "metric") as [->|Hmk].
      + rewrite lookup_insert_eq. reflexivity.
      + rewrite lookup_insert_ne by congruence. apply lookup_empty. }
  destruct (range_assign (of_fields it) st2).2 as [r m l].
  unfold with_valuesMap. simpl in *. subst r m l. reflexivity.
Qed.

Lemma generateQuery_resolved metric query st :
  generateQuery query
    (with_valuesMap (resolved_map (receiver st) metric) st)
  = (compile_for (receiver st) metric query,
     with_valuesMap (resolved_map (receiver st) metric) st).
Proof.
  unfold compile_for. rewrite !generateQuery_run. reflexivity.
Qed.

Lemma WriteMetric_loop_cons db metric orders query queries i deferred w :
  valid_iteration (receiver (store w)) metric (orders i) ->
  WriteMetric_loop db metric orders (query :: queries) i deferred w
  = match compile_for (receiver (store w)) metric query with
    | (_, _, Some err) =>
        return_after db deferred (Some err) (with_resolved metric w)
    | (sql, values, None) =>
        execute db (Driver (receiver (store w))) sql values deferred
          (WriteMetric_loop db metric orders queries (S i))
          (with_resolved metric w)
    end.
Proof.
  intros Hvalid. cbn [WriteMetric_loop]. unfold W_bind at 1, in_store at 1.
  rewrite (WriteMetric_valuesMap_run _ _ _ Hvalid).
  unfold W_bind at 1, in_store at 1. cbn [store calls].
  rewrite generateQuery_resolved.
  destruct (compile_for (receiver (store w)) metric query)
    as [[sql values] [err|]]; [reflexivity|].
  unfold W_bind at 1, in_store at 1, this. cbn [store calls receiver
    with_valuesMap].
  unfold execute, with_resolved.
  destruct (String.eqb (Driver (receiver (store w))) "clickhouse");
    reflexivity.
Qed.

(** ** The loop of [WriteMetric] on compiled queries *)

Lemma run_deferred_store db deferred w :
  store (run_deferred db deferred w).2 = store w.
Proof.
  revert w. induction deferred as [|q d IH]; intros w; [reflexivity|].
  cbn [run_deferred]. unfold W_bind, db_do. rewrite IH. reflexivity.
Qed.

Lemma execute_ext db driver sql values deferred next next' w :
  (forall d h, next d {| store := store w; calls := h |}
               = next' d {| store := store w; calls := h |}) ->
  execute db driver sql values deferred next w
  = execute db driver sql values deferred next' w.
Proof.
  intros Hnext. unfold execute, W_bind, db_do. cbn [store calls].
  destruct (String.eqb driver "clickhouse").
  - repeat match goal with
           | |- context [match ?x with Some _ => _ | None => _ end] =>
               destruct x
           end; try reflexivity.
    apply Hnext.
  - destruct (db (calls w) _); [reflexivity|]. apply Hnext.
Qed.

Lemma run_compiled_store db driver cs deferred w :
  store (run_compiled db driver cs deferred w).2 = store w.
Proof.
  revert deferred w.
  induction cs as [|[[sql values] [err|]] cs IH]; intros deferred w;
    cbn [run_compiled]; unfold return_after, W_bind, W_ret.
  - pose proof (run_deferred_store db deferred w) as H.
    destruct (run_deferred db deferred w). exact H.
  - pose proof (run_deferred_store db deferred w) as H.
    destruct (run_deferred db deferred w). exact H.
  - unfold execute, return_after, W_bind, W_ret, db_do. cbn [store calls].
    destruct (String.eqb driver "clickhouse");
      repeat match goal with
             | |- context [match ?x with Some _ => _ | None => _ end] =>
                 destruct x
             | |- context [let (_, _) := run_deferred ?db ?d ?w in _] =>
                 let H := fresh "H" in
                 pose proof (run_deferred_store db d w) as H;
                 destruct (run_deferred db d w)
             end; cbn [snd store] in *; try assumption;
      rewrite IH; reflexivity.
Qed.

Lemma WriteMetric_loop_compiled db metric orders queries i deferred st h :
  (forall i, valid_iteration (receiver st) metric (orders i)) ->
  WriteMetric_loop db metric orders queries i deferred
    {| store := with_valuesMap (resolved_map (receiver st) metric) st;
       calls := h |}
  = run_compiled db (Driver (receiver st))
      (compile_for (receiver st) metric <$> queries) deferred
      {| store := with_valuesMap (resolved_map (receiver st) metric) st;
         calls := h |}.
Proof.
  intros Hvalid. revert i deferred h.
  induction queries as [|q qs IH]; intros i deferred h; [reflexivity|].
  rewrite WriteMetric_loop_cons by apply Hvalid.
  cbn [fmap list_fmap run_compiled store receiver with_valuesMap].
  change (list_fmap _ _ (compile_for (receiver st) metric) qs)
    with (compile_for (receiver st) metric <$> qs).
  destruct (compile_for (receiver st) metric q) as [[sql values] [err|]];
    [reflexivity|].
  apply execute_ext. intros d h'. apply IH.
Qed.

Lemma WriteMetric_compiled db metric orders w :
  (forall i, valid_iteration (receiver (store w)) metric (orders i)) ->
  WriteMetric db metric orders w
  = match Queries (receiver (store w)) with
    | [] => (None, w)
    | _ :: _ =>
        run_compiled db (Driver (receiver (store w)))
          (compile_for (receiver (store w)) metric
             <$> Queries (receiver (store w))) []
          (with_resolved metric w)
    end.
Proof.
  intros Hvalid. unfold WriteMetric, W_bind at 1, in_store at 1, this.
  destruct w as [st h]. cbn [store calls].
  destruct (Queries (receiver st)) as [|q qs] eqn:Hq; [reflexivity|].
  rewrite WriteMetric_loop_cons by apply Hvalid.
  cbn [fmap list_fmap run_compiled store].
  change (list_fmap _ _ (compile_for (receiver st) metric) qs)
    with (compile_for (receiver st) metric <$> qs).
  destruct (compile_for (receiver st) metric q) as [[sql values] [err|]];
    [reflexivity|].
  apply execute_ext. intros d h'.
  apply (WriteMetric_loop_compiled db metric orders qs 1 d st h' Hvalid).
Qed.

(** X12. The order in which Go visits the default values, the tags and the
    fields does not matter: whatever the orders met in the iterations,
    [WriteMetric] returns the same error or nil, makes the same calls on
    the database and leaves the same store. *)
Theorem WriteMetric_any_order (db : Database) (metric : Metric)
    (orders orders' : nat -> iteration) (w : World) :
  (forall i, valid_iteration (receiver (store w)) metric (orders i)) ->
  (forall i, valid_iteration (receiver (store w)) metric (orders' i)) ->
  WriteMetric db metric orders w = WriteMetric db metric orders' w.
Proof.
  intros H H'.
  rewrite (WriteMetric_compiled db metric orders w H),
    (WriteMetric_compiled db metric orders' w H').
  reflexivity.
Qed.

(** ** The calls [WriteMetric] makes *)

Section database_calls.

#[local] Open Scope list_scope.

Lemma run_deferred_calls db deferred w :
  exists closes,
    run_deferred db deferred w
    = (tt, {| store := store w; calls := calls w ++ closes |})
    /\ closes.*1 = stmt_Close <$> deferred.
Proof.
  revert w. induction deferred as [|q d IH]; intros w.
  - exists []. split; [|reflexivity]. destruct w as [st h]. simpl.
    rewrite app_nil_r. reflexivity.
  - cbn [run_deferred]. unfold W_bind, db_do.
    destruct (IH {| store := store w;
                    calls := calls w ++ [(stmt_Close q,
                                          db (calls w) (stmt_Close q))] |})
      as (cl & Hrun & Hcl).
    exists ((stmt_Close q, db (calls w) (stmt_Close q)) :: cl).
    rewrite Hrun. cbn [store calls]. split.
    + rewrite <- app_assoc. reflexivity.
    + rewrite fmap_cons, Hcl. reflexivity.
Qed.

Lemma return_after_calls db deferred err w :
  exists closes,
    return_after db deferred err w
    = (err, {| store := store w; calls := calls w ++ closes |})
    /\ closes.*1 = stmt_Close <$> deferred.
Proof.
  destruct (run_deferred_calls db deferred w) as (cl & Hrun & Hcl).
  exists cl. unfold return_after, W_bind, W_ret. rewrite Hrun.
  split; [reflexivity|exact Hcl].
Qed.

Lemma outcome_return db driver cs deferred w err :
  run_compiled db driver cs deferred w = return_after db deferred err w ->
  exists closes, outcome db driver cs deferred w err [] closes.
Proof.
  intros Hrun.
  destruct (return_after_calls db deferred err w) as (cl & Hret & Hcl).
  exists cl. unfold outcome. rewrite Hrun, Hret.
  split; [reflexivity|]. split; [exact Hcl|constructor].
Qed.

Lemma run_compiled_outcome db driver cs deferred w :
  exists err body closes, outcome db driver cs deferred w err body closes.
Proof.
  revert deferred w.
  induction cs as [|[[sql values] [err|]] cs IH]; intros deferred w.
  - exists None, []. apply (outcome_return db driver [] deferred w None).
    reflexivity.
  - exists (Some err), [].
    apply (outcome_return db driver _ deferred w (Some err)). reflexivity.
  - destruct (String.eqb driver "clickhouse") eqn:Hdrv.
    + destruct (db (calls w) db_Begin) as [e|] eqn:Hb.
      { destruct (return_after_calls db deferred
                    (Some (wrap_error "begin" e))
                    {| store := store w;
                       calls := calls w ++ [(db_Begin, Some e)] |})
          as (cl & Hret & Hcl).
        exists (Some (wrap_error "begin" e)), [(db_Begin, Some e)], cl.
        unfold outcome. cbn [run_compiled]. unfold execute.
        rewrite Hdrv. unfold W_bind at 1, db_do at 1. rewrite Hb, Hret.
        cbn [store calls]. rewrite <- app_assoc.
        split; [reflexivity|]. split; [exact Hcl|].
        repeat constructor. }
      destruct (db (calls w ++ [(db_Begin, None)]) (tx_Prepare sql))
        as [e|] eqn:Hp.
      { destruct (return_after_calls db deferred
                    (Some (wrap_error "prepare" e))
                    {| store := store w;
                       calls := (calls w ++ [(db_Begin, None)])
                                ++ [(tx_Prepare sql, Some e)] |})
          as (cl & Hret & Hcl).
        exists (Some (wrap_error "prepare" e)),
          [(db_Begin, None); (tx_Prepare sql, Some e)], cl.
        unfold outcome. cbn [run_compiled]. unfold execute.
        rewrite Hdrv. unfold W_bind at 1, db_do at 1. rewrite Hb.
        unfold W_bind at 1, db_do at 1. cbn [store calls].
        rewrite Hp, Hret. cbn [store calls]. rewrite <- !app_assoc.
        split; [reflexivity|]. split; [exact Hcl|].
        repeat constructor. }
      destruct (db ((calls w ++ [(db_Begin, None)])
                    ++ [(tx_Prepare sql, None)]) (stmt_Exec sql values))
        as [e|] eqn:He.
      { destruct (return_after_calls db (sql :: deferred)
                    (Some (wrap_error "execution" e))
                    {| store := store w;
                       calls := ((calls w ++ [(db_Begin, None)])
                                 ++ [(tx_Prepare sql, None)])
                                ++ [(stmt_Exec sql values, Some e)] |})
          as (cl & Hret & Hcl).
        exists (Some (wrap_error "execution" e)),
          [(db_Begin, None); (tx_Prepare sql, None);
           (stmt_Exec sql values, Some e)], cl.
        unfold outcome. cbn [run_compiled]. unfold execute.
        rewrite Hdrv. unfold W_bind at 1, db_do at 1. rewrite Hb.
        unfold W_bind at 1, db_do at 1. cbn [store calls]. rewrite Hp.
        unfold W_bind at 1, db_do at 1. cbn [store calls].
        rewrite He, Hret. cbn [store calls]. rewrite <- !app_assoc.
        split; [reflexivity|]. split; [exact Hcl|].
        repeat constructor. }
      destruct (db (((calls w ++ [(db_Begin, None)])
                     ++ [(tx_Prepare sql, None)])
                    ++ [(stmt_Exec sql values, None)]) tx_Commit)
        as [e|] eqn:Hc.
      { destruct (return_after_calls db (sql :: deferred)
                    (Some (wrap_error "commit" e))
                    {| store := store w;
                       calls := (((calls w ++ [(db_Begin, None)])
                                  ++ [(tx_Prepare sql, None)])
                                 ++ [(stmt_Exec sql values, None)])
                                ++ [(tx_Commit, Some e)] |})
          as (cl & Hret & Hcl).
        exists (Some (wrap_error "commit" e)),
          [(db_Begin, None); (tx_Prepare sql, None);
           (stmt_Exec sql values, None); (tx_Commit, Some e)], cl.
        unfold outcome. cbn [run_compiled]. unfold execute.
        rewrite Hdrv. unfold W_bind at 1, db_do at 1. rewrite Hb.
        unfold W_bind at 1, db_do at 1. cbn [store calls]. rewrite Hp.
        unfold W_bind at 1, db_do at 1. cbn [store calls]. rewrite He.
        unfold W_bind at 1, db_do at 1. cbn [store calls].
        rewrite Hc, Hret. cbn [store calls]. rewrite <- !app_assoc.
        split; [reflexivity|]. split; [exact Hcl|].
        repeat constructor. }
      destruct (IH (sql :: deferred)
                  {| store := store w;
                     calls := (((calls w ++ [(db_Begin, None)])
                                ++ [(tx_Prepare sql, None)])
                               ++ [(stmt_Exec sql values, None)])
                              ++ [(tx_Commit, None)] |})
        as (err & body & cl & Hrun & Hcl & Hbody).
      exists err,
        ([(db_Begin, None); (tx_Prepare sql, None);
          (stmt_Exec sql values, None); (tx_Commit, None)] ++ body), cl.
      unfold outcome. cbn [run_compiled]. unfold execute.
      rewrite Hdrv. unfold W_bind at 1, db_do at 1. rewrite Hb.
      unfold W_bind at 1, db_do at 1. cbn [store calls]. rewrite Hp.
      unfold W_bind at 1, db_do at 1. cbn [store calls]. rewrite He.
      unfold W_bind at 1, db_do at 1. cbn [store calls].
      rewrite Hc, Hrun. cbn [store calls]. rewrite <- !app_assoc.
      split; [reflexivity|]. split.
      * rewrite Hcl. f_equal. unfold prepared. cbn [omap list_omap app].
        fold (prepared body). rewrite reverse_cons, <- app_assoc.
        reflexivity.
      * repeat constructor. exact Hbody.
    + destruct (db (calls w) (db_Exec sql values)) as [e|] eqn:He.
      { destruct (return_after_calls db deferred
                    (Some (wrap_error "execution" e))
                    {| store := store w;
                       calls := calls w
                                ++ [(db_Exec sql values, Some e)] |})
          as (cl & Hret & Hcl).
        exists (Some (wrap_error "execution" e)),
          [(db_Exec sql values, Some e)], cl.
        unfold outcome. cbn [run_compiled]. unfold execute.
        rewrite Hdrv. unfold W_bind at 1, db_do at 1. rewrite He, Hret.
        cbn [store calls]. rewrite <- app_assoc.
        split; [reflexivity|]. split; [exact Hcl|].
        repeat constructor. }
      destruct (IH deferred
                  {| store := store w;
                     calls := calls w ++ [(db_Exec sql values, None)] |})
        as (err & body & cl & Hrun & Hcl & Hbody).
      exists err, ([(db_Exec sql values, None)] ++ body), cl.
      unfold outcome. cbn [run_compiled]. unfold execute.
      rewrite Hdrv. unfold W_bind at 1, db_do at 1. rewrite He, Hrun.
      cbn [store calls]. rewrite <- !app_assoc.
      split; [reflexivity|]. split; [exact Hcl|].
      repeat constructor. exact Hbody.
Qed.

Lemma listed_valid p metric : valid_iteration p metric (listed p metric).
Proof. repeat split; unfold iteration_of; reflexivity. Qed.

Lemma listed_backwards_valid p metric :
  valid_iteration p metric (listed_backwards p metric).
Proof. repeat split; unfold iteration_of; apply reverse_Permutation. Qed.

Lemma WriteMetric_any_order_witness :
  (forall i : nat,
     valid_iteration (receiver (store (fresh clickhouse_plugin))) test_metric
       (listed clickhouse_plugin test_metric))
  /\ (forall i : nat,
        valid_iteration (receiver (store (fresh clickhouse_plugin)))
          test_metric (listed_backwards clickhouse_plugin test_metric))
  /\ WriteMetric accepting test_metric
       (fun _ => listed clickhouse_plugin test_metric)
       (fresh clickhouse_plugin)
     = WriteMetric accepting test_metric
         (fun _ => listed_backwards clickhouse_plugin test_metric)
         (fresh clickhouse_plugin).
Proof.
  assert (H1 : forall i : nat,
             valid_iteration (receiver (store (fresh clickhouse_plugin)))
               test_metric (listed clickhouse_plugin test_metric))
    by (intros _; apply listed_valid).
  assert (H2 : forall i : nat,
             valid_iteration (receiver (store (fresh clickhouse_plugin)))
               test_metric (listed_backwards clickhouse_plugin test_metric))
    by (intros _; apply listed_backwards_valid).
  split; [exact H1|]. split; [exact H2|].
  exact (WriteMetric_any_order accepting test_metric _ _ _ H1 H2).
Defined.

(** X13. On every way out of [WriteMetric], whatever the database answers,
    the statements that were prepared with success are closed, each once,
    the last prepared first, and nothing else is closed; the closes are the
    last calls [WriteMetric] makes. *)
Theorem WriteMetric_closes_what_it_prepared (db : Database) (metric : Metric)
    (orders : nat -> iteration) (w : World) :
  (forall i, valid_iteration (receiver (store w)) metric (orders i)) ->
  exists body closes,
    calls (WriteMetric db metric orders w).2 = calls w ++ body ++ closes
    /\ closes.*1 = stmt_Close <$> reverse (prepared body)
    /\ Forall (fun ce => is_close ce.1 = false) body.
Proof.
  intros Hvalid. rewrite (WriteMetric_compiled db metric orders w Hvalid).
  destruct (Queries (receiver (store w))) as [|q qs].
  - exists [], []. cbn [snd]. rewrite !app_nil_r.
    split; [reflexivity|]. split; [reflexivity|constructor].
  - destruct (run_compiled_outcome db (Driver (receiver (store w)))
                (compile_for (receiver (store w)) metric <$> q :: qs) []
                (with_resolved metric w))
      as (err & body & closes & Hrun & Hcl & Hbody).
    exists body, closes. rewrite Hrun. cbn [snd calls with_resolved].
    rewrite app_nil_r in Hcl. auto.
Qed.

Lemma WriteMetric_closes_what_it_prepared_witness :
  (forall i : nat,
     valid_iteration (receiver (store (fresh clickhouse_plugin))) test_metric
       (listed clickhouse_plugin test_metric))
  /\ exists body closes,
       calls (WriteMetric accepting test_metric
                (fun _ => listed clickhouse_plugin test_metric)
                (fresh clickhouse_plugin)).2
       = calls (fresh clickhouse_plugin) ++ body ++ closes
       /\ closes.*1 = stmt_Close <$> reverse (prepared body)
       /\ Forall (fun ce => is_close ce.1 = false) body.
Proof.
  assert (H1 : forall i : nat,
             valid_iteration (receiver (store (fresh clickhouse_plugin)))
               test_metric (listed clickhouse_plugin test_metric))
    by (intros _; apply listed_valid).
  split; [exact H1|].
  exact (WriteMetric_closes_what_it_prepared accepting test_metric _ _ H1).
Defined.

Lemma return_after_result db deferred err w :
  (return_after db deferred err w).1 = err.
Proof.
  destruct (return_after_calls db deferred err w) as (cl & -> & _).
  reflexivity.
Qed.

Lemma run_compiled_direct db driver cs deferred w w' :
  String.eqb driver "clickhouse" = false ->
  run_compiled db driver cs deferred w = (None, w') ->
  first_error cs = None
  /\ exists closes,
       calls w' = calls w ++ (accepted <$> (direct <$> cs)) ++ closes
       /\ closes.*1 = stmt_Close <$> deferred.
Proof.
  intros Hdrv. revert w.
  induction cs as [|[[sql values] [err|]] cs IH]; intros w;
    cbn [run_compiled first_error].
  - destruct (return_after_calls db deferred None w) as (cl & -> & Hcl).
    intros [= <-]. split; [reflexivity|]. exists cl. auto.
  - intros H. pose proof (return_after_result db deferred (Some err) w) as Hr.
    rewrite H in Hr. discriminate Hr.
  - unfold execute. rewrite Hdrv. unfold W_bind at 1, db_do at 1.
    destruct (db (calls w) (db_Exec sql values)) as [e|].
    + intros H.
      pose proof (return_after_result db deferred
                    (Some (wrap_error "execution" e))
                    {| store := store w;
                       calls := calls w ++ [(db_Exec sql values, Some e)] |})
        as Hr.
      rewrite H in Hr. discriminate Hr.
    + intros H. destruct (IH _ H) as (Hfe & cl & Hcalls & Hcl).
      split; [exact Hfe|]. exists cl. split; [|exact Hcl].
      rewrite Hcalls. cbn [calls fmap list_fmap]. rewrite <- app_assoc.
      reflexivity.
Qed.

(** X14. With a driver other than ClickHouse, a nil result means that every
    query was compiled and executed: the calls [WriteMetric] made are one
    successful [db.Exec] per query of the plugin, in the order of the
    queries, each with the statement and the arguments compiled from the
    metric, and nothing else. *)
Theorem WriteMetric_nil_means_all_executed (db : Database) (metric : Metric)
    (orders : nat -> iteration) (w w' : World) :
  (forall i, valid_iteration (receiver (store w)) metric (orders i)) ->
  Driver (receiver (store w)) <> "clickhouse" ->
  WriteMetric db metric orders w = (None, w') ->
  first_error (compile_for (receiver (store w)) metric
                 <$> Queries (receiver (store w))) = None
  /\ calls w'
     = calls w
       ++ (accepted <$> (direct <$> (compile_for (receiver (store w)) metric
                                      <$> Queries (receiver (store w))))).
Proof.
  intros Hvalid Hdrv. apply String.eqb_neq in Hdrv.
  rewrite (WriteMetric_compiled db metric orders w Hvalid).
  destruct (Queries (receiver (store w))) as [|q qs].
  - intros [= <-]. split; [reflexivity|]. cbn. rewrite app_nil_r. reflexivity.
  - intros Hrun.
    destruct (run_compiled_direct _ _ _ _ _ _ Hdrv Hrun)
      as (Hfe & cl & Hcalls & Hcl).
    split; [exact Hfe|]. rewrite Hcalls.
    destruct cl; [|discriminate Hcl]. rewrite app_nil_r. reflexivity.
Qed.

Lemma WriteMetric_nil_means_all_executed_witness :
  let w := fresh mysql_plugin in
  let w' := (WriteMetric accepting test_metric
               (fun _ => listed mysql_plugin test_metric) w).2 in
  (forall i : nat,
     valid_iteration (receiver (store w)) test_metric
       (listed mysql_plugin test_metric))
  /\ Driver (receiver (store w)) <> "clickhouse"
  /\ WriteMetric accepting test_metric
       (fun _ => listed mysql_plugin test_metric) w = (None, w')
  /\ first_error (compile_for (receiver (store w)) test_metric
                    <$> Queries (receiver (store w))) = None
  /\ calls w'
     = calls w
       ++ (accepted <$> (direct <$> (compile_for (receiver (store w))
                                       test_metric
                                     <$> Queries (receiver (store w))))).
Proof.
  cbv zeta.
  assert (H1 : forall i : nat,
             valid_iteration (receiver (store (fresh mysql_plugin)))
               test_metric (listed mysql_plugin test_metric))
    by (intros _; apply listed_valid).
  assert (H2 : Driver (receiver (store (fresh mysql_plugin)))
               <> "clickhouse") by discriminate.
  assert (H3 : WriteMetric accepting test_metric
                 (fun _ => listed mysql_plugin test_metric)
                 (fresh mysql_plugin)
               = (None,
                  (WriteMetric accepting test_metric
                     (fun _ => listed mysql_plugin test_metric)
                     (fresh mysql_plugin)).2)).
  { rewrite (surjective_pairing (WriteMetric _ _ _ _)) at 1.
    apply (f_equal2 pair); reflexivity. }
  split; [exact H1|]. split; [exact H2|]. split; [exact H3|].
  exact (WriteMetric_nil_means_all_executed accepting test_metric _ _ _
           H1 H2 H3).
Defined.

Lemma run_compiled_transactions db driver cs deferred w w' :
  String.eqb driver "clickhouse" = true ->
  run_compiled db driver cs deferred w = (None, w') ->
  first_error cs = None
  /\ exists closes,
       calls w'
       = calls w ++ (accepted <$> concat (transaction <$> cs)) ++ closes
       /\ closes.*1
          = stmt_Close <$> (reverse ((fun c => c.1.1) <$> cs) ++ deferred).
Proof.
  intros Hdrv. revert deferred w.
  induction cs as [|[[sql values] [err|]] cs IH]; intros deferred w;
    cbn [run_compiled first_error].
  - destruct (return_after_calls db deferred None w) as (cl & -> & Hcl).
    intros [= <-]. split; [reflexivity|]. exists cl. auto.
  - intros H. pose proof (return_after_result db deferred (Some err) w) as Hr.
    rewrite H in Hr. discriminate Hr.
  - unfold execute. rewrite Hdrv.
    unfold W_bind at 1, db_do at 1.
    destruct (db (calls w) db_Begin) as [e|];
      [intros H; match type of H with return_after ?d ?a ?b ?c = _ =>
         pose proof (return_after_result d a b c) as Hr end;
       rewrite H in Hr; discriminate Hr|].
    unfold W_bind at 1, db_do at 1. cbn [store calls].
    destruct (db _ (tx_Prepare sql)) as [e|];
      [intros H; match type of H with return_after ?d ?a ?b ?c = _ =>
         pose proof (return_after_result d a b c) as Hr end;
       rewrite H in Hr; discriminate Hr|].
    unfold W_bind at 1, db_do at 1. cbn [store calls].
    destruct (db _ (stmt_Exec sql values)) as [e|];
      [intros H; match type of H with return_after ?d ?a ?b ?c = _ =>
         pose proof (return_after_result d a b c) as Hr end;
       rewrite H in Hr; discriminate Hr|].
    unfold W_bind at 1, db_do at 1. cbn [store calls].
    destruct (db _ tx_Commit) as [e|];
      [intros H; match type of H with return_after ?d ?a ?b ?c = _ =>
         pose proof (return_after_result d a b c) as Hr end;
       rewrite H in Hr; discriminate Hr|].
    intros H. destruct (IH _ _ H) as (Hfe & cl & Hcalls & Hcl).
    split; [exact Hfe|]. exists cl. split.
    + rewrite Hcalls. cbn [calls fmap list_fmap concat transaction fst].
      rewrite fmap_app, <- !app_assoc. reflexivity.
    + rewrite Hcl. cbn [fmap list_fmap fst].
      rewrite reverse_cons, <- app_assoc. reflexivity.
Qed.

(** X15. Under ClickHouse, a nil result means that every query went through
    its own transaction: the calls [WriteMetric] made are, per query and in
    the order of the queries, a successful [Begin], [Prepare], [stmt.Exec]
    and [Commit], and after the last transaction the close of every
    statement, the last prepared first. *)
Theorem WriteMetric_nil_means_all_committed (db : Database) (metric : Metric)
    (orders : nat -> iteration) (w w' : World) :
  (forall i, valid_iteration (receiver (store w)) metric (orders i)) ->
  Driver (receiver (store w)) = "clickhouse" ->
  WriteMetric db metric orders w = (None, w') ->
  let cs := compile_for (receiver (store w)) metric
              <$> Queries (receiver (store w)) in
  first_error cs = None
  /\ exists closes,
       calls w'
       = calls w ++ (accepted <$> concat (transaction <$> cs)) ++ closes
       /\ closes.*1 = stmt_Close <$> reverse ((fun c => c.1.1) <$> cs).
Proof.
  intros Hvalid Hdrv. apply String.eqb_eq in Hdrv.
  rewrite (WriteMetric_compiled db metric orders w Hvalid).
  destruct (Queries (receiver (store w))) as [|q qs].
  - intros [= <-]. cbv zeta. split; [reflexivity|]. exists [].
    cbn. rewrite app_nil_r. split; reflexivity.
  - intros Hrun. cbv zeta.
    destruct (run_compiled_transactions _ _ _ _ _ _ Hdrv Hrun)
      as (Hfe & cl & Hcalls & Hcl).
    split; [exact Hfe|]. exists cl. rewrite app_nil_r in Hcl.
    split; [exact Hcalls|exact Hcl].
Qed.

Lemma WriteMetric_nil_means_all_committed_witness :
  let w := fresh clickhouse_plugin in
  let w' := (WriteMetric accepting test_metric
               (fun _ => listed clickhouse_plugin test_metric) w).2 in
  let cs := compile_for (receiver (store w)) test_metric
              <$> Queries (receiver (store w)) in
  (forall i : nat,
     valid_iteration (receiver (store w)) test_metric
       (listed clickhouse_plugin test_metric))
  /\ Driver (receiver (store w)) = "clickhouse"
  /\ WriteMetric accepting test_metric
       (fun _ => listed clickhouse_plugin test_metric) w = (None, w')
  /\ first_error cs = None
  /\ exists closes,
       calls w'
       = calls w ++ (accepted <$> concat (transaction <$> cs)) ++ closes
       /\ closes.*1 = stmt_Close <$> reverse ((fun c => c.1.1) <$> cs).
Proof.
  cbv zeta.
  assert (H1 : forall i : nat,
             valid_iteration (receiver (store (fresh clickhouse_plugin)))
               test_metric (listed clickhouse_plugin test_metric))
    by (intros _; apply listed_valid).
  assert (H2 : Driver (receiver (store (fresh clickhouse_plugin)))
               = "clickhouse") by reflexivity.
  assert (H3 : WriteMetric accepting test_metric
                 (fun _ => listed clickhouse_plugin test_metric)
                 (fresh clickhouse_plugin)
               = (None,
                  (WriteMetric accepting test_metric
                     (fun _ => listed clickhouse_plugin test_metric)
                     (fresh clickhouse_plugin)).2)).
  { rewrite (surjective_pairing (WriteMetric _ _ _ _)) at 1.
    apply (f_equal2 pair); reflexivity. }
  split; [exact H1|]. split; [exact H2|]. split; [exact H3|].
  exact (WriteMetric_nil_means_all_committed accepting test_metric _ _ _
           H1 H2 H3).
Defined.

Lemma run_compiled_accepting_result driver cs deferred w :
  (run_compiled accepting driver cs deferred w).1 = first_error cs.
Proof.
  revert deferred w.
  induction cs as [|[[sql values] [err|]] cs IH]; intros deferred w;
    cbn [run_compiled first_error].
  - apply return_after_result.
  - apply return_after_result.
  - unfold execute, W_bind, db_do, accepting.
    destruct (String.eqb driver "clickhouse"); apply IH.
Qed.

(** X16. With a database that accepts every call, [WriteMetric] fails only
    for a missing value: it returns the error of the first query of the
    plugin that does not compile for the metric, and nil when all compile. *)
Theorem WriteMetric_accepting_database (metric : Metric)
    (orders : nat -> iteration) (w : World) :
  (forall i, valid_iteration (receiver (store w)) metric (orders i)) ->
  (WriteMetric accepting metric orders w).1
  = first_error (compile_for (receiver (store w)) metric
                   <$> Queries (receiver (store w))).
Proof.
  intros Hvalid. rewrite (WriteMetric_compiled _ metric orders w Hvalid).
  destruct (Queries (receiver (store w))) as [|q qs]; [reflexivity|].
  apply run_compiled_accepting_result.
Qed.

Lemma WriteMetric_accepting_database_witness :
  (forall i : nat,
     valid_iteration (receiver (store (fresh incomplete_plugin))) test_metric
       (listed incomplete_plugin test_metric))
  /\ (WriteMetric accepting test_metric
        (fun _ => listed incomplete_plugin test_metric)
        (fresh incomplete_plugin)).1
     = first_error (compile_for (receiver (store (fresh incomplete_plugin)))
                      test_metric
                    <$> Queries (receiver (store (fresh incomplete_plugin)))).
Proof.
  assert (H1 : forall i : nat,
             valid_iteration (receiver (store (fresh incomplete_plugin)))
               test_metric (listed incomplete_plugin test_metric))
    by (intros _; apply listed_valid).
  split; [exact H1|].
  exact (WriteMetric_accepting_database test_metric _ _ H1).
Defined.

Lemma run_deferred_transport db deferred s s' h :
  run_deferred db deferred {| store := s; calls := h |}
  = (tt, {| store := s;
            calls := calls (run_deferred db deferred
                              {| store := s'; calls := h |}).2 |}).
Proof.
  revert h. induction deferred as [|q d IH]; intros h; [reflexivity|].
  cbn [run_deferred]. unfold W_bind, db_do. cbn [store calls].
  rewrite IH. reflexivity.
Qed.

Lemma return_after_transport db deferred err s s' h :
  return_after db deferred err {| store := s; calls := h |}
  = (err, {| store := s;
             calls := calls (return_after db deferred err
                               {| store := s'; calls := h |}).2 |}).
Proof.
  unfold return_after, W_bind, W_ret.
  rewrite (run_deferred_transport db deferred s s' h).
  destruct (run_deferred db deferred {| store := s'; calls := h |}).
  reflexivity.
Qed.

Lemma run_compiled_transport db driver cs deferred s s' h :
  run_compiled db driver cs deferred {| store := s; calls := h |}
  = ((run_compiled db driver cs deferred {| store := s'; calls := h |}).1,
     {| store := s;
        calls := calls (run_compiled db driver cs deferred
                          {| store := s'; calls := h |}).2 |}).
Proof.
  revert deferred h.
  induction cs as [|[[sql values] [err|]] cs IH]; intros deferred h;
    cbn [run_compiled].
  - rewrite (return_after_transport db deferred None s s' h),
      return_after_result. reflexivity.
  - rewrite (return_after_transport db deferred (Some err) s s' h),
      return_after_result. reflexivity.
  - unfold execute, W_bind, db_do. cbv beta iota delta [store calls].
    destruct (String.eqb driver "clickhouse");
      repeat match goal with
             | |- context [match db ?h ?c with Some _ => _ | None => _ end] =>
                 destruct (db h c)
             end;
      try apply IH;
      match goal with
      | |- return_after ?db ?d ?e {| store := s; calls := ?h |} = _ =>
          rewrite (return_after_transport db d e s s' h),
            return_after_result; reflexivity
      end.
Qed.

Lemma return_after_or_error db deferred err err' w :
  return_after db deferred (or_error err err') w
  = (or_error err (return_after db deferred err' w).1,
     (return_after db deferred err' w).2).
Proof.
  unfold return_after, W_bind, W_ret.
  destruct (run_deferred db deferred w). reflexivity.
Qed.

Lemma run_compiled_cut db driver cs1 sql values err cs2 deferred w :
  run_compiled db driver (cs1 ++ (sql, values, Some err) :: cs2) deferred w
  = (or_error err (run_compiled db driver cs1 deferred w).1,
     (run_compiled db driver cs1 deferred w).2).
Proof.
  revert deferred w.
  induction cs1 as [|[[sql1 values1] [err1|]] cs1 IH]; intros deferred w;
    cbn [app run_compiled].
  - apply (return_after_or_error db deferred err None w).
  - apply (return_after_or_error db deferred err (Some err1) w).
  - unfold execute, W_bind, db_do. cbv beta iota delta [store calls].
    destruct (String.eqb driver "clickhouse");
      repeat match goal with
             | |- context [match db ?h ?c with Some _ => _ | None => _ end] =>
                 destruct (db h c)
             end;
      try apply IH;
      match goal with
      | |- return_after ?db ?d (Some ?e) ?w = _ =>
          apply (return_after_or_error db d err (Some e) w)
      end.
Qed.

Lemma compile_for_with_Queries queries p metric (qs : list string) :
  compile_for (with_Queries queries p) metric <$> qs
  = compile_for p metric <$> qs.
Proof.
  apply list_fmap_ext. intros _ q _.
  unfold compile_for. rewrite !generateQuery_run. reflexivity.
Qed.

(** X17. A query that asks for a value the metric does not have stops
    [WriteMetric] before the database sees it: the calls made are those of
    the plugin without that query and the queries after it, and the result
    is the error of those calls if there is one, else the error that names
    the missing key.  The queries before it stay executed. *)
Theorem WriteMetric_stops_at_missing_value (db : Database) (metric : Metric)
    (orders : nat -> iteration) (w : World) (before after : list string)
    (query key : string) :
  (forall i, valid_iteration (receiver (store w)) metric (orders i)) ->
  first_missing (resolved_map (receiver (store w)) metric)
    (keys (tokens query)) = Some key ->
  let full := WriteMetric db metric orders
                (with_world_Queries (before ++ query :: after) w) in
  let cut := WriteMetric db metric orders (with_world_Queries before w) in
  calls full.2 = calls cut.2
  /\ full.1 = or_error (key ++ " not found in metric")%string cut.1.
Proof.
  intros Hvalid Hkey full cut. subst full cut.
  assert (Hq : compile_for (receiver (store w)) metric query
               = (EmptyString, [], Some (not_found_error key))).
  { unfold compile_for. rewrite generateQuery_run. cbn [fst valuesMap store_of].
    rewrite Hkey. reflexivity. }
  rewrite !WriteMetric_compiled by exact Hvalid.
  cbn [with_world_Queries store receiver with_receiver with_Queries Queries
       Driver].
  rewrite !compile_for_with_Queries, fmap_app, fmap_cons, Hq.
  set (cs1 := compile_for (receiver (store w)) metric <$> before).
  destruct before as [|q qs].
  - cbn [app fmap list_fmap run_compiled snd fst calls with_resolved].
    unfold return_after, W_bind, W_ret. cbn. split; reflexivity.
  - change ((q :: qs) ++ query :: after) with (q :: (qs ++ query :: after)).
    cbv iota.
    set (s1 := store (with_resolved metric
                        (with_world_Queries (q :: qs ++ query :: after) w))).
    set (s2 := store (with_resolved metric
                        (with_world_Queries (q :: qs) w))).
    change (with_resolved metric
              (with_world_Queries (q :: qs ++ query :: after) w))
      with {| store := s1; calls := calls w |}.
    change (with_resolved metric (with_world_Queries (q :: qs) w))
      with {| store := s2; calls := calls w |}.
    rewrite run_compiled_cut.
    rewrite (run_compiled_transport db _ cs1 [] s1 s2 (calls w)).
    cbn [fst snd calls]. split; reflexivity.
Qed.

Lemma WriteMetric_stops_at_missing_value_witness :
  let w := fresh incomplete_plugin in
  let orders := fun _ : nat => listed incomplete_plugin test_metric in
  let full := WriteMetric accepting test_metric orders
                (with_world_Queries
                   (["UPDATE x SET a=:host"]
                    ++ "UPDATE x SET b=:nothing" :: ["UPDATE x SET c=:k"]) w) in
  let cut := WriteMetric accepting test_metric orders
               (with_world_Queries ["UPDATE x SET a=:host"] w) in
  (forall i : nat,
     valid_iteration (receiver (store w)) test_metric (orders i))
  /\ first_missing (resolved_map (receiver (store w)) test_metric)
       (keys (tokens "UPDATE x SET b=:nothing")) = Some "nothing"
  /\ calls full.2 = calls cut.2
  /\ full.1 = or_error ("nothing" ++ " not found in metric")%string cut.1.
Proof.
  cbv zeta.
  assert (H1 : forall i : nat,
             valid_iteration (receiver (store (fresh incomplete_plugin)))
               test_metric (listed incomplete_plugin test_metric))
    by (intros _; apply listed_valid).
  assert (H2 : first_missing
                 (resolved_map (receiver (store (fresh incomplete_plugin)))
                    test_metric)
                 (keys (tokens "UPDATE x SET b=:nothing")) = Some "nothing")
    by (vm_compute; reflexivity).
  split; [exact H1|]. split; [exact H2|].
  exact (WriteMetric_stops_at_missing_value accepting test_metric
           (fun _ => listed incomplete_plugin test_metric)
           (fresh incomplete_plugin) ["UPDATE x SET a=:host"]
           ["UPDATE x SET c=:k"] "UPDATE x SET b=:nothing" "nothing" H1 H2).
Defined.

(** ** Write *)

Lemma Write_loop_app db orders (ms1 ms2 : list Metric) j w :
  Write_loop db orders (ms1 ++ ms2) j w
  = match Write_loop db orders ms1 j w with
    | (Some err, w1) => (Some err, w1)
    | (None, w1) => Write_loop db orders ms2 (length ms1 + j)%nat w1
    end.
Proof.
  revert j w. induction ms1 as [|m ms1 IH]; intros j w; [reflexivity|].
  cbn [app Write_loop length]. unfold W_bind.
  destruct (WriteMetric db m (orders j) w) as [[err|] w1]; [reflexivity|].
  rewrite IH, Nat.add_succ_r. reflexivity.
Qed.

Lemma Write_loop_shift db orders (ms : list Metric) k j w :
  Write_loop db orders ms (k + j)%nat w
  = Write_loop db (fun i => orders (k + i)%nat) ms j w.
Proof.
  revert j w. induction ms as [|m ms IH]; intros j w; [reflexivity|].
  cbn [Write_loop]. unfold W_bind.
  destruct (WriteMetric db m (orders (k + j)%nat) w) as [[err|] w1];
    [reflexivity|].
  rewrite <- IH, Nat.add_succ_r. reflexivity.
Qed.

(** X18. [Write] stops at the first metric that [WriteMetric] fails on: when
    the metrics before it were written without error and [WriteMetric]
    returns an error on it, [Write] returns that error and leaves the plugin
    and the database as that call left them, whatever metrics follow. *)
Theorem Write_stops_at_first_error (db : Database)
    (orders : nat -> nat -> iteration) (done rest : list Metric)
    (metric : Metric) (err : string) (w w1 w2 : World) :
  Write db orders done w = (None, w1) ->
  WriteMetric db metric (orders (length done)) w1 = (Some err, w2) ->
  Write db orders (done ++ metric :: rest) w = (Some err, w2).
Proof.
  unfold Write. intros Hdone Hmetric.
  rewrite Write_loop_app, Hdone. cbn [Write_loop]. unfold W_bind.
  rewrite Nat.add_0_r, Hmetric. reflexivity.
Qed.

Lemma Write_stops_at_first_error_witness :
  let orders := fun (_ _ : nat) => listed incomplete_plugin test_metric in
  let w := fresh incomplete_plugin in
  let w2 := (WriteMetric accepting test_metric (orders 0%nat) w).2 in
  Write accepting orders [] w = (None, w)
  /\ WriteMetric accepting test_metric (orders (length ([] : list Metric))) w
     = (Some "nothing not found in metric", w2)
  /\ Write accepting orders ([] ++ test_metric :: [test_metric]) w
     = (Some "nothing not found in metric", w2).
Proof.
  cbv zeta.
  assert (H1 : Write accepting
                 (fun _ _ : nat => listed incomplete_plugin test_metric) []
                 (fresh incomplete_plugin)
               = (None, fresh incomplete_plugin)) by reflexivity.
  assert (H2 : WriteMetric accepting test_metric
                 ((fun _ _ : nat => listed incomplete_plugin test_metric)
                    (length ([] : list Metric)))
                 (fresh incomplete_plugin)
               = (Some "nothing not found in metric",
                  (WriteMetric accepting test_metric
                     ((fun _ _ : nat => listed incomplete_plugin test_metric)
                        0%nat)
                     (fresh incomplete_plugin)).2)).
  { rewrite (surjective_pairing (WriteMetric _ _ _ _)) at 1.
    apply (f_equal2 pair); reflexivity. }
  split; [exact H1|]. split; [exact H2|].
  exact (Write_stops_at_first_error accepting
           (fun _ _ : nat => listed incomplete_plugin test_metric) []
           [test_metric] test_metric "nothing not found in metric"
           (fresh incomplete_plugin) (fresh incomplete_plugin) _ H1 H2).
Defined.

(** X19. Writing two batches in one call of [Write] is writing the first and,
    when that returns no error, the second on what the first left; an error
    in the first batch is the result and the second batch is not started. *)
Theorem Write_batches (db : Database) (orders : nat -> nat -> iteration)
    (first second : list Metric) (w : World) :
  Write db orders (first ++ second) w
  = match Write db orders first w with
    | (Some err, w1) => (Some err, w1)
    | (None, w1) =>
        Write db (fun j => orders (length first + j)%nat) second w1
    end.
Proof.
  unfold Write. rewrite Write_loop_app.
  destruct (Write_loop db orders first 0 w) as [[err|] w1]; [reflexivity|].
  apply Write_loop_shift.
Qed.

End database_calls.
